(** * OData-style filter expressions: serializer, parser and translator

    A shallow embedding of the filter utilities of the monorepo:

    - the shared model ([FilterOperator], [ODataFilter], [ParsedFilter]),
    - the frontend serializer ([formatFilterValue],
      [filterToODataExpression], [buildFilterQueryParams]),
    - the backend parser ([tokenizeODataExpression], [parseValue],
      [parseODataExpression], [parseFilterQueryParams]),
    - the backend translator ([convertFiltersToFindOptionsWhere]).

    JavaScript strings are lists of characters (code units below 256),
    JavaScript objects used as dictionaries are finite maps (the object
    the translator assigns to is the finite map of its own properties
    together with its prototype), and the built-ins the code relies on for
    numbers ([Number], [isNaN], [isFinite] and [String]) are an interface
    with one executable instance for decimal integers. *)

From Stdlib Require Import ZArith List Ascii String Bool Lia DecimalString.
From stdpp Require Import gmap strings list fin_maps.
Import ListNotations.

Set Warnings "-register-all".

Abbreviation str := (list ascii).
Coercion list_ascii_of_string : string >-> list.
Open Scope string_scope.
Open Scope list_scope.
Open Scope nat_scope.

(** ** Characters and strings *)

Module Char.

Definition squote : ascii := "'"%char.
Definition dquote : ascii := "034"%char.
Definition backslash : ascii := "\"%char.
Definition lparen : ascii := "("%char.
Definition rparen : ascii := ")"%char.
Definition comma : ascii := ","%char.
Definition space : ascii := " "%char.
Definition at_sign : ascii := "@"%char.

(** The regular expression class [\s] (and the set removed by [trim]),
    on code units below 256: TAB, LF, VT, FF, CR, SPACE and NBSP. *)
Definition isSpace (c : ascii) : bool :=
  match c with
  | "009" | "010" | "011" | "012" | "013" | " " | "160" => true
  | _ => false
  end%char.

(** [toLowerCase] on one code unit: A-Z and the Latin-1 capitals. *)
Definition toLower (c : ascii) : ascii :=
  let n := N_of_ascii c in
  if ((65 <=? n) && (n <=? 90)
      || (192 <=? n) && (n <=? 222) && negb (n =? 215))%N
  then ascii_of_N (n + 32) else c.

Definition isDigit (c : ascii) : bool :=
  let n := N_of_ascii c in ((48 <=? n) && (n <=? 57))%N.

End Char.

Definition toLowerCase (s : str) : str := map Char.toLower s.

Fixpoint dropWhile {A} (p : A -> bool) (l : list A) : list A :=
  match l with
  | [] => []
  | x :: l' => if p x then dropWhile p l' else l
  end.

Fixpoint takeWhile {A} (p : A -> bool) (l : list A) : list A :=
  match l with
  | [] => []
  | x :: l' => if p x then x :: takeWhile p l' else []
  end.

(** [s.trim()] *)
Definition trim (s : str) : str :=
  rev (dropWhile Char.isSpace (rev (dropWhile Char.isSpace s))).

(** Truthiness of a string: non-empty. *)
Definition truthy (s : str) : bool :=
  match s with [] => false | _ :: _ => true end.

(** [s.startsWith(p)] and [s.endsWith(p)] *)
Definition startsWith (s p : str) : bool :=
  bool_decide (take (length p) s = p).

Definition endsWith (s p : str) : bool :=
  startsWith (rev s) (rev p).

(** [s.includes(c)] for a one-character needle. *)
Definition includes (s : str) (c : ascii) : bool :=
  existsb (fun x => bool_decide (x = c)) s.

(** [s.slice(1, -1)] *)
Definition slice_1_m1 (s : str) : str := removelast (tail s).

(** [l.join(sep)] on an array of strings. *)
Fixpoint join (sep : str) (l : list str) : str :=
  match l with
  | [] => []
  | [x] => x
  | x :: l' => x ++ sep ++ join sep l'
  end.

(** [s.split(',')]: never empty, [''.split(',')] is [['']]. *)
Fixpoint split (sep : ascii) (s : str) : list str :=
  match s with
  | [] => [[]]
  | c :: s' =>
      if bool_decide (c = sep) then [] :: split sep s'
      else match split sep s' with
           | h :: t => (c :: h) :: t
           | [] => [[c]]
           end
  end.

(** [s.replace(/'/g, "''")] *)
Definition escapeQuotes (s : str) : str :=
  flat_map (fun c => if bool_decide (c = Char.squote)
                     then [Char.squote; Char.squote] else [c]) s.

(** [s.replace(/''/g, "'")]: leftmost, non-overlapping. *)
Fixpoint unescapeQuotes (s : str) : str :=
  match s with
  | [] => []
  | c :: s' =>
      match s' with
      | c' :: s'' =>
          if bool_decide (c = Char.squote) && bool_decide (c' = Char.squote)
          then Char.squote :: unescapeQuotes s''
          else c :: unescapeQuotes s'
      | [] => [c]
      end
  end.

(** ** Numbers

    The code reads numbers with [Number(token)], tests them with [isNaN]
    and [isFinite], and prints them with [String(n)].  These built-ins are
    an interface; the theorems hold for every implementation of it. *)

Class JSNumber := {
  number : Type;
  Number : str -> number;
  isNaN : number -> bool;
  isFinite : number -> bool;
  numberToString : number -> str
}.

(** ** Values and the shared model (odata-filter.models) *)

Section Model.
Context {JSN : JSNumber}.

(** The JavaScript values a filter carries: [null], [undefined],
    booleans, numbers, strings and arrays of these.  Dates and other
    objects are outside the model. *)
Inductive jsvalue : Type :=
| VNull
| VUndefined
| VBool (b : bool)
| VNum (n : number)
| VStr (s : str)
| VArr (l : list jsvalue).

(** [ODataFilter] and [ParsedFilter] have the same three fields; the
    operator is the enum's string value. *)
Record ODataFilter := mkFilter {
  prop : str;
  operator : str;
  value : jsvalue
}.

Definition ParsedFilter := ODataFilter.

End Model.

Module FilterOperator.
Definition EQ : str := "eq".
Definition NE : str := "ne".
Definition GT : str := "gt".
Definition GE : str := "ge".
Definition LT : str := "lt".
Definition LE : str := "le".
Definition CONTAINS : str := "contains".
Definition STARTSWITH : str := "startswith".
Definition ENDSWITH : str := "endswith".
Definition IN : str := "in".
Definition NOT_IN : str := "notIn".
Definition IS_NULL : str := "isNull".
Definition IS_NOT_NULL : str := "isNotNull".

(** [Object.values(FilterOperator)] *)
Definition values : list str :=
  [EQ; NE; GT; GE; LT; LE; CONTAINS; STARTSWITH; ENDSWITH;
   IN; NOT_IN; IS_NULL; IS_NOT_NULL].
End FilterOperator.

(** ** The serializer (odata-filter.utils, frontend) *)

Section Serializer.
Context {JSN : JSNumber}.

(** [String(v)] on the values of the model; inside an array [null] and
    [undefined] print as the empty string ([Array.prototype.join]). *)
Fixpoint toString (v : jsvalue) : str :=
  match v with
  | VNull => "null"
  | VUndefined => "undefined"
  | VBool b => if b then "true" else "false"
  | VNum n => numberToString n
  | VStr s => s
  | VArr l =>
      join ","
        (map (fun e => match e with
                       | VNull | VUndefined => []
                       | _ => toString e
                       end) l)
  end.

Definition quoted (s : str) : str :=
  [Char.squote] ++ escapeQuotes s ++ [Char.squote].

(** One element of an array value, as formatted by the [map] callback. *)
Definition formatArrayElement (v : jsvalue) : str :=
  match v with
  | VStr s =>
      if includes s Char.space || includes s Char.squote
         || includes s Char.dquote
      then quoted s
      else s
  | _ => toString v
  end.

Definition formatFilterValue (v : jsvalue) : str :=
  match v with
  | VNull | VUndefined => "null"
  | VArr l => "(" ++ join ", " (map formatArrayElement l) ++ ")"
  | VBool b => if b then "true" else "false"
  | VStr s =>
      if includes s Char.space || includes s Char.squote
         || includes s Char.dquote || includes s Char.at_sign
      then quoted s
      else s
  | VNum _ => toString v
  end.

Definition filterToODataExpression (filter : ODataFilter) : str :=
  let '(mkFilter prop operator value) := filter in
  if bool_decide (operator = FilterOperator.IS_NULL) then
    prop ++ " isNull"
  else if bool_decide (operator = FilterOperator.IS_NOT_NULL) then
    prop ++ " isNotNull"
  else if bool_decide (operator = FilterOperator.IN)
          || bool_decide (operator = FilterOperator.NOT_IN) then
    prop ++ " " ++ operator ++ " " ++ formatFilterValue value
  else
    prop ++ " " ++ operator ++ " " ++ formatFilterValue value.

(** The [logicalOperator] parameter: ['and' | 'or'], default ['and']. *)
Inductive LogicalOperator := And | Or.

Definition logicalText (l : LogicalOperator) : str :=
  match l with And => "and" | Or => "or" end.

(** The result is a [Record<string, string>]. *)
Definition buildFilterQueryParams
    (filters : list ODataFilter) (logicalOperator : LogicalOperator)
  : gmap str str :=
  if bool_decide (length filters = 0) then ∅
  else
    let expressions := map filterToODataExpression filters in
    let filterExpression :=
      join (" " ++ logicalText logicalOperator ++ " ") expressions in
    {[ ("filter" : str) := filterExpression ]}.

(** [encodeURIComponent] is a built-in; it is a parameter here.  The
    parameter object has at most one entry, so the order of
    [Object.entries] does not matter. *)
Definition buildFilterQueryString (encodeURIComponent : str → str)
    (filters : list ODataFilter) (logicalOperator : LogicalOperator) : str :=
  let params := buildFilterQueryParams filters logicalOperator in
  join "&"
    (map (fun '(key, value) =>
            encodeURIComponent key ++ "=" ++ encodeURIComponent value)
         (map_to_list params)).

Definition buildSingleFilterQueryParam (prop operator : str)
    (value : jsvalue) : gmap str str :=
  buildFilterQueryParams [mkFilter prop operator value] And.

End Serializer.

(** ** The parser (odata-filter.utils, backend) *)

Section Parser.
Context {JSN : JSNumber}.

Record TokenizerState := mkTok {
  tokens : list str;
  current : str;
  inQuotes : bool;
  quoteChar : option ascii
}.

(** [if (current.trim()) { tokens.push(current.trim()); current = ''; }] *)
Definition flush (st : TokenizerState) : TokenizerState :=
  if truthy (trim (current st))
  then mkTok (tokens st ++ [trim (current st)]) [] (inQuotes st) (quoteChar st)
  else st.

Definition isQuote (c : ascii) : bool :=
  bool_decide (c = Char.squote) || bool_decide (c = Char.dquote).

(** One iteration of the scanning loop; [prev] is [expression[i - 1]],
    absent when [i = 0]. *)
Definition tokenizeStep (prev : option ascii) (char : ascii)
    (st : TokenizerState) : TokenizerState :=
  if isQuote char && negb (bool_decide (prev = Some Char.backslash)) then
    if negb (inQuotes st) then
      let st' := flush st in
      mkTok (tokens st') (current st' ++ [char]) true (Some char)
    else if bool_decide (quoteChar st = Some char) then
      mkTok (tokens st ++ [current st ++ [char]]) [] false None
    else
      mkTok (tokens st) (current st ++ [char]) (inQuotes st) (quoteChar st)
  else if inQuotes st then
    mkTok (tokens st) (current st ++ [char]) (inQuotes st) (quoteChar st)
  else if Char.isSpace char then
    flush st
  else if bool_decide (char = Char.lparen) || bool_decide (char = Char.rparen)
  then
    let st' := flush st in
    mkTok (tokens st' ++ [[char]]) (current st') (inQuotes st') (quoteChar st')
  else
    mkTok (tokens st) (current st ++ [char]) (inQuotes st) (quoteChar st).

Fixpoint tokenizeLoop (prev : option ascii) (rest : str)
    (st : TokenizerState) : TokenizerState :=
  match rest with
  | [] => st
  | char :: rest' => tokenizeLoop (Some char) rest' (tokenizeStep prev char st)
  end.

Definition tokenizeODataExpression (expression : str) : list str :=
  let st := flush (tokenizeLoop None expression (mkTok [] [] false None)) in
  List.filter (fun token => 0 <? length token) (tokens st).

(** [parseValue]; the recursion on the parts of a parenthesised token is
    bounded by the length of the token. *)
Fixpoint parseValueFuel (fuel : nat) (token : str) : jsvalue :=
  if bool_decide (token = "null") then VNull
  else if startsWith token "'" && endsWith token "'"
          || startsWith token [Char.dquote] && endsWith token [Char.dquote]
  then VStr (unescapeQuotes (slice_1_m1 token))
  else if startsWith token "(" && endsWith token ")" then
    match fuel with
    | 0 => VArr []
    | S fuel' =>
        let content := slice_1_m1 token in
        VArr (map (fun v => parseValueFuel fuel' (trim v))
                  (split Char.comma content))
    end
  else if bool_decide (token = "true") then VBool true
  else if bool_decide (token = "false") then VBool false
  else if negb (isNaN (Number token)) && negb (bool_decide (token = []))
          && isFinite (Number token)
  then VNum (Number token)
  else VStr token.

Definition parseValue (token : str) : jsvalue :=
  parseValueFuel (length token) token.

(** The inner [while] of [parseODataExpression]: from [tokens[j]] on,
    collect up to the first [')'].  Returns [arrayValues] and the tokens
    from index [j + 1] on (none when no [')'] was found). *)
Fixpoint collectArrayValues (ts : list str) (arrayValues : list str)
  : list str * list str :=
  match ts with
  | [] => (arrayValues, [])
  | t :: ts' =>
      if bool_decide (t = ")") then (arrayValues, ts')
      else if negb (bool_decide (t = ",")) && negb (bool_decide (t = "("))
      then collectArrayValues ts' (arrayValues ++ [t])
      else collectArrayValues ts' arrayValues
  end.

(** One iteration of the outer [while]: [t0 :: ts1] is [tokens] from the
    cursor [i] on and [filters] the array built so far; the result is the
    tokens from the new cursor on and the array after the iteration. *)
Definition parseStep (t0 : str) (ts1 : list str) (filters : list ParsedFilter)
  : list str * list ParsedFilter :=
  let lowerToken := toLowerCase t0 in
  if bool_decide (lowerToken = "and") || bool_decide (lowerToken = "or")
  then (ts1, filters)
  else
    match ts1 with
    | t1 :: t2 :: ts3 =>
        let prop := t0 in
        let operator := toLowerCase t1 in
        let '(valueToken, next) :=
          if bool_decide (operator = FilterOperator.IN)
             || bool_decide (operator = FilterOperator.NOT_IN)
          then
            if bool_decide (t2 = "(") && bool_decide (ts3 ≠ []) then
              let '(arrayValues, after) := collectArrayValues ts3 [] in
              ("(" ++ join ", " arrayValues ++ ")", after)
            else (t2, ts3)
          else (t2, ts3) in
        if bool_decide (operator ∈ FilterOperator.values) then
          (next, filters ++ [mkFilter prop operator (parseValue valueToken)])
        else (next, filters)
    | _ => (ts1, filters)
    end.

(** The outer [while].  Every iteration moves the cursor forward, so the
    number of tokens bounds the number of iterations. *)
Fixpoint parseLoop (fuel : nat) (ts : list str) (filters : list ParsedFilter)
  : list ParsedFilter :=
  match fuel with
  | 0 => filters
  | S fuel' =>
      match ts with
      | [] => filters
      | t0 :: ts1 =>
          let '(next, filters') := parseStep t0 ts1 filters in
          parseLoop fuel' next filters'
      end
  end.

Definition parseODataExpression (expression : str) : list ParsedFilter :=
  let tokens := tokenizeODataExpression expression in
  parseLoop (length tokens) tokens [].

(** [remaining.match(/^\s+and\s+/i)]: the length of the match, if any. *)
Definition matchJoiner (word : str) (remaining : str) : option nat :=
  let ws1 := takeWhile Char.isSpace remaining in
  let r1 := dropWhile Char.isSpace remaining in
  let w := take (length word) r1 in
  let r2 := drop (length word) r1 in
  let ws2 := takeWhile Char.isSpace r2 in
  if truthy ws1 && bool_decide (toLowerCase w = word) && truthy ws2
  then Some (length ws1 + length word + length ws2)
  else None.

Definition pushPart (current : str) (marker : str) (parts : list str)
  : list str * str :=
  if truthy (trim current)
  then (parts ++ [trim current; marker], [])
  else (parts, current).

(** One iteration of the splitting loop of [parseFilterQueryParams] on
    [remaining = c :: remaining'], which is [filterExpression.slice(i)]. *)
Definition splitStep (c : ascii) (remaining' : str) (current : str)
    (parts : list str) : str * str * list str :=
  let remaining := c :: remaining' in
  match matchJoiner "and" remaining with
  | Some n =>
      let '(parts', current') := pushPart current "AND" parts in
      (drop n remaining, current', parts')
  | None =>
      match matchJoiner "or" remaining with
      | Some n =>
          let '(parts', current') := pushPart current "OR" parts in
          (drop n remaining, current', parts')
      | None => (remaining', current ++ [c], parts)
      end
  end.

Fixpoint splitLoop (fuel : nat) (remaining : str) (current : str)
    (parts : list str) : list str * str :=
  match fuel with
  | 0 => (parts, current)
  | S fuel' =>
      match remaining with
      | [] => (parts, current)
      | c :: remaining' =>
          let '(next, current', parts') :=
            splitStep c remaining' current parts in
          splitLoop fuel' next current' parts'
      end
  end.

Definition splitParts (filterExpression : str) : list str :=
  let '(parts, current) :=
    splitLoop (length filterExpression) filterExpression [] [] in
  if truthy (trim current) then parts ++ [trim current] else parts.

Definition isMarker (part : str) : bool :=
  bool_decide (part = "AND") || bool_decide (part = "OR").

(** [for (const part of parts) ...] *)
Fixpoint collectFilters (parts : list str) (allFilters : list ParsedFilter)
  : list ParsedFilter :=
  match parts with
  | [] => allFilters
  | part :: parts' =>
      if negb (isMarker part)
      then collectFilters parts' (allFilters ++ parseODataExpression part)
      else collectFilters parts' allFilters
  end.

(** [query] is a [Record<string, any>]. *)
Definition parseFilterQueryParams (query : gmap str jsvalue)
  : list ParsedFilter :=
  match query !! ("filter" : str) with
  | Some (VStr filterExpression) =>
      if negb (truthy filterExpression) then []
      else collectFilters (splitParts filterExpression) []
  | _ => []
  end.

End Parser.

(** ** The translator (odata-filter.utils, backend) *)

(** The query operators of the data-access layer the translator builds. *)
Module TypeORM.
Section Operators.
Context {JSN : JSNumber}.

Inductive FindOperator : Type :=
| Equal (v : jsvalue)
| Not (f : FindOperator)
| MoreThan (v : jsvalue)
| MoreThanOrEqual (v : jsvalue)
| LessThan (v : jsvalue)
| LessThanOrEqual (v : jsvalue)
| Like (pattern : str)
| In (vs : list jsvalue)
| IsNull.

End Operators.
End TypeORM.

Section Translator.
Context {JSN : JSNumber}.

Definition isNull (v : jsvalue) : bool :=
  match v with VNull => true | _ => false end.

(** The object [where] the translator fills.  [own] holds the properties
    that assignments created on the object itself.  [proto] is [None]
    while the prototype is the one of the literal [{}], and
    [Some predicate] once an assignment to the key [__proto__] has made
    that operator object the prototype. *)
Record WhereObject : Type := mkWhere {
  own : gmap str TypeORM.FindOperator;
  proto : option TypeORM.FindOperator
}.

(** What a run of the translator yields: the object it returns, or
    [DecidedByOperatorClass] when a write of a new key goes through an
    operator object that has become the prototype.  What such a write
    does (create the property, call a setter, or fail) is fixed by the
    properties of the operator objects of the data-access library and not
    by the translator, so no object is given for it. *)
Inductive Outcome : Type :=
| Returns (where_ : WhereObject)
| DecidedByOperatorClass.

(** The key whose assignment reaches the prototype setter. *)
Definition protoKey : str := "__proto__".

(** The assignment [where[prop] = predicate].  A property the object
    already owns is overwritten.  Otherwise the key is looked up along
    the prototype chain.  On the prototype of the literal [{}] the key
    [__proto__] is an accessor whose setter makes the assigned object the
    new prototype and creates no property; every other key names at most
    a writable data property there, and the assignment creates an own
    property.  Once an operator object is the prototype, a key that is not
    yet an own property is looked up on that object first. *)
Definition assign (where_ : WhereObject) (prop : str)
    (predicate : TypeORM.FindOperator) : Outcome :=
  match own where_ !! prop, proto where_ with
  | Some _, _ =>
      Returns (mkWhere (<[prop := predicate]> (own where_)) (proto where_))
  | None, None =>
      if bool_decide (prop = protoKey)
      then Returns (mkWhere (own where_) (Some predicate))
      else Returns (mkWhere (<[prop := predicate]> (own where_)) None)
  | None, Some _ => DecidedByOperatorClass
  end.

(** The body of the [forEach] callback: one [switch] on the operator,
    writing [where[prop]]. *)
Definition convertStep (where_ : WhereObject) (filter : ParsedFilter)
  : Outcome :=
  let '(mkFilter prop operator value) := filter in
  if bool_decide (operator = FilterOperator.EQ) then
    if isNull value then assign where_ prop TypeORM.IsNull
    else assign where_ prop (TypeORM.Equal value)
  else if bool_decide (operator = FilterOperator.NE) then
    if isNull value then assign where_ prop (TypeORM.Not TypeORM.IsNull)
    else assign where_ prop (TypeORM.Not (TypeORM.Equal value))
  else if bool_decide (operator = FilterOperator.GT) then
    assign where_ prop (TypeORM.MoreThan value)
  else if bool_decide (operator = FilterOperator.GE) then
    assign where_ prop (TypeORM.MoreThanOrEqual value)
  else if bool_decide (operator = FilterOperator.LT) then
    assign where_ prop (TypeORM.LessThan value)
  else if bool_decide (operator = FilterOperator.LE) then
    assign where_ prop (TypeORM.LessThanOrEqual value)
  else if bool_decide (operator = FilterOperator.CONTAINS) then
    assign where_ prop (TypeORM.Like ("%" ++ toString value ++ "%"))
  else if bool_decide (operator = FilterOperator.STARTSWITH) then
    assign where_ prop (TypeORM.Like (toString value ++ "%"))
  else if bool_decide (operator = FilterOperator.ENDSWITH) then
    assign where_ prop (TypeORM.Like ("%" ++ toString value))
  else if bool_decide (operator = FilterOperator.IN) then
    match value with
    | VArr (v :: vs) => assign where_ prop (TypeORM.In (v :: vs))
    | _ => Returns where_
    end
  else if bool_decide (operator = FilterOperator.NOT_IN) then
    match value with
    | VArr (v :: vs) =>
        assign where_ prop (TypeORM.Not (TypeORM.In (v :: vs)))
    | _ => Returns where_
    end
  else if bool_decide (operator = FilterOperator.IS_NULL) then
    assign where_ prop TypeORM.IsNull
  else if bool_decide (operator = FilterOperator.IS_NOT_NULL) then
    assign where_ prop (TypeORM.Not TypeORM.IsNull)
  else
    assign where_ prop (TypeORM.Equal value).

(** [filters.forEach], the callback run on each filter in order. *)
Fixpoint forEach (filters : list ParsedFilter) (where_ : WhereObject)
  : Outcome :=
  match filters with
  | [] => Returns where_
  | filter :: rest =>
      match convertStep where_ filter with
      | Returns where' => forEach rest where'
      | DecidedByOperatorClass => DecidedByOperatorClass
      end
  end.

Definition convertFiltersToFindOptionsWhere (filters : list ParsedFilter)
  : Outcome :=
  forEach filters (mkWhere ∅ None).

Definition parseFiltersFromQuery (query : gmap str jsvalue) : Outcome :=
  convertFiltersToFindOptionsWhere (parseFilterQueryParams query).

End Translator.

(** ** An executable instance of the number interface

    Decimal integer literals with an optional sign, surrounded by optional
    white space, the blank string (which [Number] reads as 0) and the
    literal [Infinity].  The examples below are evaluated with it; numeric
    literals with a fraction, an exponent or a radix prefix are beyond it. *)

Module IntegerNumber.

Inductive znumber :=
| ZFinite (z : Z)
| ZInfinity (negative : bool)
| ZNaN.

Definition digitValue (c : ascii) : Z := Z.of_N (N_of_ascii c) - 48.

Definition digitsValue (ds : str) : Z :=
  fold_left (fun acc c => 10 * acc + digitValue c)%Z ds 0%Z.

Definition unsignedLiteral (s : str) : znumber :=
  if bool_decide (s = "Infinity") then ZInfinity false
  else if truthy s && forallb Char.isDigit s then ZFinite (digitsValue s)
  else ZNaN.

Definition negate (n : znumber) : znumber :=
  match n with
  | ZFinite z => ZFinite (- z)
  | ZInfinity b => ZInfinity (negb b)
  | ZNaN => ZNaN
  end.

Definition ofString (s : str) : znumber :=
  match trim s with
  | [] => ZFinite 0
  | c :: r =>
      if bool_decide (c = "+"%char) then unsignedLiteral r
      else if bool_decide (c = "-"%char) then negate (unsignedLiteral r)
      else unsignedLiteral (c :: r)
  end.

Definition toStr (n : znumber) : str :=
  match n with
  | ZFinite z => list_ascii_of_string (NilZero.string_of_int (Z.to_int z))
  | ZInfinity false => "Infinity"
  | ZInfinity true => "-Infinity"
  | ZNaN => "NaN"
  end.

#[export] Instance instance : JSNumber := {|
  number := znumber;
  Number := ofString;
  isNaN n := match n with ZNaN => true | _ => false end;
  isFinite n := match n with ZFinite _ => true | _ => false end;
  numberToString := toStr
|}.

(** The number value of an integer. *)
Definition VInt (z : Z) : @jsvalue instance := @VNum instance (ZFinite z).

End IntegerNumber.

(** ** Specification vocabulary

    Queries, and the notions the properties below are stated with. *)

Section Specification.
Context {JSN : JSNumber}.

(** The query object [{ filter: expression }]. *)
Definition queryOf (expression : str) : gmap str jsvalue :=
  {[ ("filter" : str) := VStr expression ]}.

(** The query object [{ filter: params.filter }]: a missing property
    reads as [undefined]. *)
Definition queryFrom (params : gmap str str) : gmap str jsvalue :=
  {[ ("filter" : str) :=
       match params !! ("filter" : str) with
       | Some expression => VStr expression
       | None => VUndefined
       end ]}.

(** The tokens-level view of [parseODataExpression]. *)
Definition parseTokens (ts : list str) (filters : list ParsedFilter)
  : list ParsedFilter :=
  parseLoop (length ts) ts filters.

(** A string the value formatter quotes: it holds a space, a single or a
    double quote, or an at sign. *)
Definition needsQuoting (s : str) : Prop :=
  Char.space ∈ s ∨ Char.squote ∈ s ∨ Char.dquote ∈ s ∨ Char.at_sign ∈ s.

(** What the parser guarantees of every descriptor it emits: the operator
    is a lower-cased token and a value of the enumeration. *)
Definition accepted (f : ParsedFilter) : Prop :=
  operator f ∈ FilterOperator.values ∧ ∃ t : str, operator f = toLowerCase t.

(** The predicate the translator writes for one filter, if any: in the
    object built from that filter alone, the own property named by the
    filter or, when there is none, the operator object that has become
    the prototype. *)
Definition translation (f : ParsedFilter) : option TypeORM.FindOperator :=
  match convertFiltersToFindOptionsWhere [f] with
  | Returns where_ =>
      match own where_ !! prop f with
      | Some predicate => Some predicate
      | None => proto where_
      end
  | DecidedByOperatorClass => None
  end.

(** A filter sequence in which no filter names the key [__proto__]. *)
Definition withoutProtoKey (filters : list ParsedFilter) : Prop :=
  Forall (fun f => prop f ≠ protoKey) filters.

(** The mapping of property names to predicates after one more filter,
    where every assignment creates or overwrites an own property. *)
Definition entryStep (entries : gmap str TypeORM.FindOperator)
    (f : ParsedFilter) : gmap str TypeORM.FindOperator :=
  match translation f with
  | Some predicate => <[prop f := predicate]> entries
  | None => entries
  end.

(** The last filter of a sequence on a given property. *)
Definition lastOn (p : str) (filters : list ParsedFilter)
  : option ParsedFilter :=
  last (List.filter (fun f => bool_decide (prop f = p)) filters).

(** An [in] or [notIn] filter that fails the translator's guard: its value
    is not an array, or is the empty array. *)
Definition guardFails (f : ParsedFilter) : Prop :=
  (operator f = FilterOperator.IN ∨ operator f = FilterOperator.NOT_IN)
  ∧ ((∀ l : list jsvalue, value f ≠ VArr l) ∨ value f = VArr []).

(** *** The descriptors that survive a round trip *)

(** A character of a bare token: no white space, quote or parenthesis. *)
Definition plainChar (c : ascii) : bool :=
  negb (Char.isSpace c) && negb (isQuote c)
  && negb (bool_decide (c = Char.lparen))
  && negb (bool_decide (c = Char.rparen)).

(** A bare word: a non-empty run of plain characters that is not [and] or
    [or] in any letter case. *)
Definition bareWord (s : str) : Prop :=
  s ≠ [] ∧ forallb plainChar s = true
  ∧ toLowerCase s ≠ "and" ∧ toLowerCase s ≠ "or".

(** The operators whose enum value is all lower case. *)
Definition roundTripOperators : list str :=
  [ FilterOperator.EQ; FilterOperator.NE; FilterOperator.GT;
    FilterOperator.GE; FilterOperator.LT; FilterOperator.LE;
    FilterOperator.CONTAINS; FilterOperator.STARTSWITH;
    FilterOperator.ENDSWITH; FilterOperator.IN ].

(** [remaining] starts with a joiner the parser splits on:
    [/^\s+and\s+/i] or [/^\s+or\s+/i] matches. *)
Definition joinerAt (remaining : str) : bool :=
  match matchJoiner "and" remaining, matchJoiner "or" remaining with
  | None, None => false
  | _, _ => true
  end.

(** No suffix of [s] starts with a joiner. *)
Fixpoint noJoinerIn (s : str) : bool :=
  match s with
  | [] => true
  | _ :: s' => negb (joinerAt s) && noJoinerIn s'
  end.

(** A bare word that [parseValue] reads as a string. *)
Definition readsAsString (s : str) : Prop :=
  s ≠ "null" ∧ s ≠ "true" ∧ s ≠ "false"
  ∧ (isNaN (Number s) = true ∨ isFinite (Number s) = false).

(** The scalar values that survive a round trip:
    - [null] and the booleans;
    - a finite number whose text is a bare word that reads back as the
      same number;
    - a string without single quote that the formatter quotes (it holds
      a space, a double quote or an at sign) and that holds no joiner;
    - a string that the formatter leaves bare, is a bare word and reads
      as a string. *)
Definition roundTripValue (v : jsvalue) : Prop :=
  match v with
  | VNull | VBool _ => True
  | VNum n =>
      let t := numberToString n in
      bareWord t ∧ t ≠ "null" ∧ t ≠ "true" ∧ t ≠ "false"
      ∧ Number t = n ∧ isNaN n = false ∧ isFinite n = true
  | VStr s =>
      (Char.squote ∉ s)
      ∧ (if includes s Char.space || includes s Char.dquote
            || includes s Char.at_sign
         then noJoinerIn s = true
         else bareWord s ∧ readsAsString s)
  | VUndefined | VArr _ => False
  end.

Definition roundTripFilter (f : ODataFilter) : Prop :=
  bareWord (prop f)
  ∧ operator f ∈ roundTripOperators
  ∧ roundTripValue (value f).

(** The domain the specification gives for the round trip, read at its
    narrowest: scalars and arrays whose strings hold no single quote,
    double quote or space. *)
Fixpoint plainValue (v : jsvalue) : bool :=
  match v with
  | VStr s =>
      negb (includes s Char.squote || includes s Char.dquote
            || includes s Char.space)
  | VArr l => forallb plainValue l
  | VUndefined => false
  | VNull | VBool _ | VNum _ => true
  end.

(** [parseFilterQueryParams({filter: buildFilterQueryParams(D).filter})] *)
Definition roundTrip (D : list ODataFilter) (l : LogicalOperator)
  : list ParsedFilter :=
  parseFilterQueryParams (queryFrom (buildFilterQueryParams D l)).

(** The text of a formatted scalar value: a bare word, or a string in
    single quotes that holds no single quote and no joiner. *)
Definition valueToken (fv : str) : Prop :=
  bareWord fv
  ∨ ∃ s : str,
      fv = [Char.squote] ++ s ++ [Char.squote]
      ∧ (Char.squote ∉ s)
      ∧ noJoinerIn s = true.

(** The splitting loop sees no joiner while it scans [e] followed by
    [K]. *)
Definition safeBefore (K e : str) : Prop :=
  ∀ t1 t2 : str, e = t1 ++ t2 → t2 ≠ [] → joinerAt (t2 ++ K) = false.

(** What follows a serialized filter: nothing, or the space that starts
    the separator. *)
Definition openContext (K : str) : Prop :=
  K = [] ∨ ∃ K' : str, K = Char.space :: K'.

(** A piece of the filter expression that the splitting loop returns as
    one part. *)
Definition segment (e : str) : Prop :=
  (∃ (c : ascii) (e' : str), e = c :: e' ∧ Char.isSpace c = false)
  ∧ trim e = e
  ∧ isMarker e = false
  ∧ ∀ K : str, openContext K → safeBefore K e.

Definition markerOf (l : LogicalOperator) : str :=
  match l with And => "AND" | Or => "OR" end.

Fixpoint intersperse (marker : str) (es : list str) : list str :=
  match es with
  | [] => []
  | e :: es' =>
      match es' with
      | [] => [e]
      | _ :: _ => e :: marker :: intersperse marker es'
      end
  end.

(** The previous character after scanning [w]. *)
Definition prevAfter (prev : option ascii) (w : str) : option ascii :=
  match last w with Some c => Some c | None => prev end.

(** The splitting loop run on all of [remaining]. *)
Definition splitAll (remaining current : str) (parts : list str)
  : list str * str :=
  splitLoop (length remaining) remaining current parts.

(** *** Vocabulary of the further properties *)

(** A character that is neither white space nor a parenthesis. *)
Definition wordChar (c : ascii) : bool :=
  negb (Char.isSpace c)
  && negb (bool_decide (c = Char.lparen))
  && negb (bool_decide (c = Char.rparen)).



(** A query that carries no filter text: [filter] is absent, is not a
    string, or is a blank string. *)
Definition noFilterText (query : gmap str jsvalue) : Prop :=
  match query !! ("filter" : str) with
  | Some (VStr s) => forallb Char.isSpace s = true
  | _ => True
  end.

(** The tokens the collecting loop keeps. *)
Definition keptInList (t : str) : bool :=
  negb (bool_decide (t = ",")) && negb (bool_decide (t = "(")).

(** An array element that survives formatting and [parseValue]: [null],
    a boolean, a finite number whose text is a bare word without comma
    that reads back as the number, or a string without single quote and
    comma that is quoted (it holds a space or a double quote), is empty,
    or is a run of plain characters that reads as a string. *)
Definition arrayElementOK (v : jsvalue) : Prop :=
  match v with
  | VNull | VBool _ => True
  | VNum n =>
      let t := numberToString n in
      (Char.comma ∉ t)
      ∧ bareWord t ∧ t ≠ "null" ∧ t ≠ "true" ∧ t ≠ "false"
      ∧ Number t = n ∧ isNaN n = false ∧ isFinite n = true
  | VStr s =>
      (Char.squote ∉ s) ∧ (Char.comma ∉ s)
      ∧ (if includes s Char.space || includes s Char.dquote
         then True
         else s = [] ∨ (forallb plainChar s = true ∧ readsAsString s))
  | VUndefined | VArr _ => False
  end.

End Specification.

(** * Properties *)

(** Refutes membership in a list of distinct literals. *)
Ltac refute_elem H :=
  repeat (apply elem_of_cons in H as [H|H]; [discriminate H|]);
  by apply elem_of_nil in H.

(** ** Characters *)

Lemma toLower_not_capital_I (c : ascii) : Char.toLower c ≠ "I"%char.
Proof. destruct c as [[] [] [] [] [] [] [] []]; vm_compute; discriminate. Qed.

Lemma toLower_not_capital_N (c : ascii) : Char.toLower c ≠ "N"%char.
Proof. destruct c as [[] [] [] [] [] [] [] []]; vm_compute; discriminate. Qed.

Lemma toLowerCase_not_notIn (t : str) : toLowerCase t ≠ FilterOperator.NOT_IN.
Proof.
  destruct t as [|c1 [|c2 [|c3 [|c4 t]]]]; try discriminate.
  intros H. injection H as _ _ _ H _. by apply toLower_not_capital_I in H.
Qed.

Lemma toLowerCase_not_isNull (t : str) : toLowerCase t ≠ FilterOperator.IS_NULL.
Proof.
  destruct t as [|c1 [|c2 [|c3 t]]]; try discriminate.
  intros H. injection H as _ _ H _. by apply toLower_not_capital_N in H.
Qed.

Lemma toLowerCase_not_isNotNull (t : str) :
  toLowerCase t ≠ FilterOperator.IS_NOT_NULL.
Proof.
  destruct t as [|c1 [|c2 [|c3 t]]]; try discriminate.
  intros H. injection H as _ _ H _. by apply toLower_not_capital_N in H.
Qed.

(** ** The loops run to completion

    Each loop is bounded by the length of what it scans; more fuel changes
    nothing. *)

Section Fuel.
Context {JSN : JSNumber}.

Lemma collectArrayValues_length (ts acc : list str) :
  length (collectArrayValues ts acc).2 ≤ length ts.
Proof.
  revert acc. induction ts as [|t ts IH]; intros acc; simpl; [lia|].
  case_bool_decide; simpl; [lia|].
  destruct (_ && _); etrans; [apply IH|lia|apply IH|lia].
Qed.

Lemma parseStep_length (t0 : str) (ts1 : list str) (filters : list ParsedFilter) :
  length (parseStep t0 ts1 filters).1 ≤ length ts1.
Proof.
  unfold parseStep. destruct (_ || _); simpl; [lia|].
  destruct ts1 as [|t1 [|t2 ts3]]; simpl; try lia.
  pose proof (collectArrayValues_length ts3 []) as Hc.
  destruct (collectArrayValues ts3 []) as [vs after]; simpl in Hc.
  repeat (destruct (_ || _) || destruct (_ && _) || case_bool_decide);
    simpl; lia.
Qed.

Lemma parseLoop_fuel (fuel1 fuel2 : nat) (ts : list str)
    (filters : list ParsedFilter) :
  length ts ≤ fuel1 → length ts ≤ fuel2 →
  parseLoop fuel1 ts filters = parseLoop fuel2 ts filters.
Proof.
  revert fuel2 ts filters.
  induction fuel1 as [|fuel1 IH]; intros fuel2 ts filters H1 H2.
  - destruct ts; [|simpl in H1; lia]. by destruct fuel2.
  - destruct ts as [|t0 ts1]; [by destruct fuel2|].
    destruct fuel2 as [|fuel2]; simpl in *; [lia|].
    pose proof (parseStep_length t0 ts1 filters) as Hs.
    destruct (parseStep t0 ts1 filters) as [next filters']; simpl in Hs.
    apply IH; lia.
Qed.

(** The unfolding equations of the token loop. *)
Lemma parseTokens_nil (filters : list ParsedFilter) :
  parseTokens [] filters = filters.
Proof. reflexivity. Qed.

Lemma parseTokens_cons (t0 : str) (ts1 : list str) (filters : list ParsedFilter) :
  parseTokens (t0 :: ts1) filters =
  parseTokens (parseStep t0 ts1 filters).1 (parseStep t0 ts1 filters).2.
Proof.
  unfold parseTokens; simpl.
  pose proof (parseStep_length t0 ts1 filters) as Hs.
  destruct (parseStep t0 ts1 filters) as [next filters']; simpl in *.
  apply parseLoop_fuel; lia.
Qed.

End Fuel.

Section FuelValue.
Context {JSN : JSNumber}.

Lemma dropWhile_length {A} (p : A → bool) (l : list A) :
  length (dropWhile p l) ≤ length l.
Proof. induction l as [|x l IH]; simpl; [lia|]. destruct (p x); simpl; lia. Qed.

Lemma trim_length (s : str) : length (trim s) ≤ length s.
Proof.
  unfold trim. rewrite length_rev.
  etrans; [apply dropWhile_length|]. rewrite length_rev.
  apply dropWhile_length.
Qed.

Lemma split_length (sep : ascii) (s part : str) :
  part ∈ split sep s → length part ≤ length s.
Proof.
  revert part. induction s as [|c s IH]; intros part; simpl.
  - intros ->%list_elem_of_singleton. simpl; lia.
  - case_bool_decide.
    + intros [->|Hin]%elem_of_cons; simpl; [lia|]. apply IH in Hin. lia.
    + destruct (split sep s) as [|h t] eqn:E.
      * intros ->%list_elem_of_singleton. simpl; lia.
      * intros [->|Hin]%elem_of_cons; simpl.
        -- assert (length h ≤ length s) by (apply IH; left). lia.
        -- assert (length part ≤ length s) by (apply IH; by right). lia.
Qed.

Lemma removelast_length {A} (l : list A) : length (removelast l) ≤ length l.
Proof.
  induction l as [|x [|y l] IH]; simpl in *; lia.
Qed.

Lemma slice_1_m1_length (s : str) : length (slice_1_m1 s) ≤ length s - 1.
Proof.
  unfold slice_1_m1. etrans; [apply removelast_length|].
  destruct s; simpl; lia.
Qed.

Lemma parseValueFuel_fuel (fuel1 fuel2 : nat) (token : str) :
  length token ≤ fuel1 → length token ≤ fuel2 →
  parseValueFuel fuel1 token = parseValueFuel fuel2 token.
Proof.
  revert fuel2 token.
  induction fuel1 as [|fuel1 IH]; intros fuel2 token H1 H2.
  - destruct token; [|simpl in H1; lia]. by destruct fuel2.
  - destruct fuel2 as [|fuel2].
    { destruct token; [reflexivity|simpl in H2; lia]. }
    simpl. repeat (case_bool_decide || destruct (_ || _)
                   || destruct (_ && _)); try reflexivity.
    all: f_equal; apply map_ext_in; intros part Hin;
      apply list_elem_of_In, split_length in Hin;
      pose proof (trim_length part); pose proof (slice_1_m1_length token);
      apply IH; lia.
Qed.

(** With enough fuel [parseValueFuel] is [parseValue]. *)
Lemma parseValueFuel_enough (fuel : nat) (token : str) :
  length token ≤ fuel → parseValueFuel fuel token = parseValue token.
Proof. intros H. unfold parseValue. by apply parseValueFuel_fuel. Qed.

End FuelValue.

Section FuelSplit.

Lemma truthy_length (s : str) : truthy s = true → 0 < length s.
Proof. destruct s; simpl; [discriminate|lia]. Qed.

Lemma matchJoiner_pos (word remaining : str) (n : nat) :
  matchJoiner word remaining = Some n → 0 < n.
Proof.
  unfold matchJoiner.
  destruct (truthy (takeWhile _ remaining)) eqn:E; simpl; [|discriminate].
  apply truthy_length in E.
  destruct (_ && _); [|discriminate]. intros [= <-]. lia.
Qed.

Lemma splitStep_length (c : ascii) (r cur : str) (parts : list str) :
  length (splitStep c r cur parts).1.1 ≤ length r.
Proof.
  unfold splitStep.
  destruct (matchJoiner "and" (c :: r)) as [n|] eqn:Ea.
  { apply matchJoiner_pos in Ea. destruct (pushPart cur "AND" parts).
    destruct n; [lia|]. simpl. rewrite length_drop. lia. }
  destruct (matchJoiner "or" (c :: r)) as [n|] eqn:Eo; [|simpl; lia].
  apply matchJoiner_pos in Eo. destruct (pushPart cur "OR" parts).
  destruct n; [lia|]. simpl. rewrite length_drop. lia.
Qed.

Lemma splitLoop_fuel (fuel1 fuel2 : nat) (r cur : str) (parts : list str) :
  length r ≤ fuel1 → length r ≤ fuel2 →
  splitLoop fuel1 r cur parts = splitLoop fuel2 r cur parts.
Proof.
  revert fuel2 r cur parts.
  induction fuel1 as [|fuel1 IH]; intros fuel2 r cur parts H1 H2.
  - destruct r; [|simpl in H1; lia]. by destruct fuel2.
  - destruct r as [|c r]; [by destruct fuel2|].
    destruct fuel2 as [|fuel2]; simpl in *; [lia|].
    pose proof (splitStep_length c r cur parts) as Hs.
    destruct (splitStep c r cur parts) as [[next cur'] parts']; simpl in Hs.
    apply IH; lia.
Qed.

Lemma splitAll_nil (cur : str) (parts : list str) :
  splitAll [] cur parts = (parts, cur).
Proof. reflexivity. Qed.

Lemma splitAll_cons (c : ascii) (r cur : str) (parts : list str) :
  splitAll (c :: r) cur parts =
  let '(next, cur', parts') := splitStep c r cur parts in
  splitAll next cur' parts'.
Proof.
  unfold splitAll; simpl.
  pose proof (splitStep_length c r cur parts) as Hs.
  destruct (splitStep c r cur parts) as [[next cur'] parts']; simpl in *.
  apply splitLoop_fuel; lia.
Qed.

End FuelSplit.

(** ** Worked examples of the parser *)

Section ParserExamples.
Import IntegerNumber.

(** C10.  Parsing ["age gt 18 and status eq active"] returns exactly two
    descriptors in order: [age gt 18] with the value coerced to the number
    18, then [status eq "active"] with the bare identifier kept as a
    string; the [and] joiner is consumed and not retained. *)
Theorem parse_age_and_status :
  parseFilterQueryParams (queryOf "age gt 18 and status eq active") =
  [ mkFilter "age" FilterOperator.GT (VInt 18);
    mkFilter "status" FilterOperator.EQ (VStr "active") ].
Proof. vm_compute. reflexivity. Qed.

(** C3, as the code behaves.  Parsing ["role in (admin, editor)"], the
    text the serializer emits for the two-element array, returns one
    descriptor on [role] with operator [in], but its array value has
    three elements: the tokenizer keeps the comma attached to [admin], the
    collected tokens are joined again with [", "], and splitting the
    rebuilt text on commas leaves an empty part between the two names. *)
Theorem parse_role_in_list :
  buildFilterQueryParams
    [mkFilter "role" FilterOperator.IN (VArr [VStr "admin"; VStr "editor"])]
    And !! ("filter" : str) = Some ("role in (admin, editor)" : str)
  ∧ tokenizeODataExpression "role in (admin, editor)" =
    [ "role" : str; "in" : str; "(" : str; "admin," : str; "editor" : str;
      ")" : str ]
  ∧ parseFilterQueryParams (queryOf "role in (admin, editor)") =
    [ mkFilter "role" FilterOperator.IN
        (VArr [VStr "admin"; VStr ""; VStr "editor"]) ].
Proof. repeat split; vm_compute; reflexivity. Qed.

(** C2, as the code behaves.  The serializer renders an [isNull]
    descriptor as the two tokens ["deletedAt isNull"]; the parser returns
    no descriptor for that text (it needs three tokens before it reads a
    filter), and none either when a third token follows, because the
    lower-cased operator [isnull] is not a value of [FilterOperator]. *)
Theorem parse_isNull_dropped :
  buildFilterQueryParams
    [mkFilter "deletedAt" FilterOperator.IS_NULL VNull] And
    !! ("filter" : str) = Some ("deletedAt isNull" : str)
  ∧ parseFilterQueryParams (queryOf "deletedAt isNull") = []
  ∧ parseFilterQueryParams (queryOf "deletedAt isNull null") = [].
Proof. repeat split; vm_compute; reflexivity. Qed.

End ParserExamples.

(** ** The value formatter *)

Section Formatter.
Context {JSN : JSNumber}.

Lemma includes_elem_of (s : str) (c : ascii) : includes s c = true ↔ c ∈ s.
Proof.
  unfold includes. rewrite existsb_exists. split.
  - intros (x & Hx & Heq). apply bool_decide_eq_true in Heq as ->.
    by apply list_elem_of_In.
  - intros H. exists c. split; [by apply list_elem_of_In|].
    by apply bool_decide_eq_true.
Qed.

Lemma includes_false (s : str) (c : ascii) : includes s c = false ↔ c ∉ s.
Proof.
  rewrite <- includes_elem_of. destruct (includes s c); naive_solver.
Qed.

Lemma needsQuoting_includes (s : str) :
  includes s Char.space || includes s Char.squote
  || includes s Char.dquote || includes s Char.at_sign = true
  ↔ needsQuoting s.
Proof.
  unfold needsQuoting. rewrite !orb_true_iff, !includes_elem_of. tauto.
Qed.

Lemma escapeQuotes_length (s : str) : length s ≤ length (escapeQuotes s).
Proof.
  unfold escapeQuotes. induction s as [|c s IH]; simpl; [lia|].
  rewrite length_app. case_bool_decide; simpl; lia.
Qed.

Lemma escapeQuotes_plain (s : str) : Char.squote ∉ s → escapeQuotes s = s.
Proof.
  induction s as [|c s IH]; [done|]. intros Hn. simpl.
  rewrite bool_decide_eq_false_2 by (intros ->; apply Hn; left).
  simpl. f_equal. apply IH. intros H. apply Hn. by right.
Qed.

Lemma quoted_ne (s : str) : quoted s ≠ s.
Proof.
  intros H. apply (f_equal length) in H. unfold quoted in H.
  rewrite !length_app in H. simpl in H.
  pose proof (escapeQuotes_length s). lia.
Qed.

(** C9.  The value formatter quotes a string value (wrapping it in single
    quotes and doubling the single quotes inside) if and only if the
    string contains a space, a single or double quote, or an at sign;
    otherwise the string is emitted bare.  In particular the descriptor
    [email eq "a@b.com"] serializes to [email eq 'a@b.com']. *)
Theorem formatFilterValue_string_quoting :
  (∀ s : str,
     (formatFilterValue (VStr s)
        = [Char.squote] ++ escapeQuotes s ++ [Char.squote]
      ↔ needsQuoting s)
     ∧ (formatFilterValue (VStr s) = s ↔ ¬ needsQuoting s))
  ∧ (∀ a b : str,
       escapeQuotes (a ++ [Char.squote] ++ b)
       = escapeQuotes a ++ [Char.squote; Char.squote] ++ escapeQuotes b)
  ∧ buildFilterQueryParams
      [mkFilter "email" FilterOperator.EQ (VStr "a@b.com")] And
      !! ("filter" : str) = Some ("email eq 'a@b.com'" : str).
Proof.
  split; [|split].
  - intros s. simpl. rewrite <- needsQuoting_includes.
    destruct (_ || _) eqn:E.
    + split; [done|]. split; [by intros ?%quoted_ne|done].
    + split; [|done]. split; [|done].
      intros H. symmetry in H. by apply quoted_ne in H.
  - intros a b. unfold escapeQuotes. by rewrite !flat_map_app.
  - vm_compute. reflexivity.
Qed.

End Formatter.

(** ** Empty inputs *)

Section EmptyInputs.
Context {JSN : JSNumber}.

(** C8.  Serializing the empty descriptor sequence yields the empty
    parameter object, so no [filter] parameter is emitted, and the empty
    query string; parsing a query whose [filter] is the empty string, or
    that has no [filter], yields the empty descriptor sequence. *)
Theorem empty_input_identities :
  (∀ l : LogicalOperator,
     buildFilterQueryParams [] l = ∅
     ∧ buildFilterQueryParams [] l !! ("filter" : str) = None
     ∧ ∀ encodeURIComponent : str → str,
         buildFilterQueryString encodeURIComponent [] l = [])
  ∧ (∀ query : gmap str jsvalue,
       parseFilterQueryParams (<[("filter" : str) := VStr ""]> query) = [])
  ∧ (∀ query : gmap str jsvalue,
       parseFilterQueryParams (delete ("filter" : str) query) = [])
  ∧ parseFilterQueryParams ∅ = []
  ∧ parseFilterQueryParams (queryFrom (buildFilterQueryParams [] And)) = [].
Proof.
  repeat split.
  - intros query. unfold parseFilterQueryParams.
    by rewrite lookup_insert_eq.
  - intros query. unfold parseFilterQueryParams.
    by rewrite lookup_delete_eq.
Qed.

End EmptyInputs.

(** ** Operators the parser accepts *)

Section Operators.
Context {JSN : JSNumber}.

Lemma parseStep_unknown (p o v : str) (rest : list str)
    (filters : list ParsedFilter) :
  toLowerCase p ≠ "and" → toLowerCase p ≠ "or" →
  toLowerCase o ∉ FilterOperator.values →
  parseStep p (o :: v :: rest) filters = (rest, filters).
Proof.
  intros Hand Hor Hop. unfold parseStep.
  rewrite (bool_decide_eq_false_2 _ Hand), (bool_decide_eq_false_2 _ Hor).
  simpl.
  assert (toLowerCase o ≠ FilterOperator.IN) as Hin
    by (intros E; apply Hop; rewrite E; set_solver).
  assert (toLowerCase o ≠ FilterOperator.NOT_IN) as Hnin
    by apply toLowerCase_not_notIn.
  rewrite (bool_decide_eq_false_2 _ Hin), (bool_decide_eq_false_2 _ Hnin).
  simpl. by rewrite (bool_decide_eq_false_2 _ Hop).
Qed.

Lemma parseStep_accepted (t0 : str) (ts1 : list str)
    (filters : list ParsedFilter) :
  Forall accepted filters → Forall accepted (parseStep t0 ts1 filters).2.
Proof.
  intros H. unfold parseStep. destruct (_ || _); [done|].
  destruct ts1 as [|t1 [|t2 ts3]]; try done.
  destruct (if _ || _ then _ else _) as [valueToken next].
  case_bool_decide as Hop; [|done]. simpl.
  apply Forall_app. split; [done|]. constructor; [|done].
  split; [done|]. by exists t1.
Qed.

Lemma parseLoop_accepted (fuel : nat) (ts : list str)
    (filters : list ParsedFilter) :
  Forall accepted filters → Forall accepted (parseLoop fuel ts filters).
Proof.
  revert ts filters. induction fuel as [|fuel IH]; intros ts filters H; [done|].
  destruct ts as [|t0 ts1]; [done|]. simpl.
  pose proof (parseStep_accepted t0 ts1 filters H) as Hs.
  destruct (parseStep t0 ts1 filters) as [next filters']. by apply IH.
Qed.

Lemma collectFilters_accepted (parts : list str) (acc : list ParsedFilter) :
  Forall accepted acc → Forall accepted (collectFilters parts acc).
Proof.
  revert acc. induction parts as [|part parts IH]; intros acc H; [done|].
  simpl. destruct (negb _); [|by apply IH].
  apply IH, Forall_app. split; [done|]. by apply parseLoop_accepted.
Qed.

Lemma parseFilterQueryParams_accepted (query : gmap str jsvalue) :
  Forall accepted (parseFilterQueryParams query).
Proof.
  unfold parseFilterQueryParams.
  destruct (query !! _) as [[]|]; try done.
  destruct (negb _); [done|]. by apply collectFilters_accepted.
Qed.

(** C4.  For every input query, no descriptor returned by
    [parseFilterQueryParams] has operator [notIn], [isNull] or
    [isNotNull]: the operator of a returned descriptor is a lower-cased
    token that is a value of [FilterOperator], and those three values
    contain capital letters. *)
Theorem parsed_operator_never_mixed_case
    (query : gmap str jsvalue) (f : ParsedFilter) :
  f ∈ parseFilterQueryParams query →
  operator f ≠ FilterOperator.NOT_IN
  ∧ operator f ≠ FilterOperator.IS_NULL
  ∧ operator f ≠ FilterOperator.IS_NOT_NULL
  ∧ operator f ∈ FilterOperator.values
  ∧ ∃ t : str, operator f = toLowerCase t.
Proof.
  intros Hin.
  pose proof (parseFilterQueryParams_accepted query) as H.
  rewrite Forall_forall in H. destruct (H f Hin) as [Hv [t Ht]].
  rewrite Ht. repeat split.
  - apply toLowerCase_not_notIn.
  - apply toLowerCase_not_isNull.
  - apply toLowerCase_not_isNotNull.
  - by rewrite <- Ht.
  - by exists t.
Qed.

(** C6.  A prop-operator-value triplet whose lower-cased operator token
    is not a value of [FilterOperator] is dropped without any error: the
    parser goes on with the tokens after the triplet and the descriptors
    read so far are unchanged. *)
Theorem unknown_operator_dropped
    (expression p o v : str) (rest : list str) :
  tokenizeODataExpression expression = p :: o :: v :: rest →
  toLowerCase p ≠ "and" → toLowerCase p ≠ "or" →
  toLowerCase o ∉ FilterOperator.values →
  parseODataExpression expression = parseTokens rest []
  ∧ ∀ filters : list ParsedFilter,
      parseTokens (p :: o :: v :: rest) filters = parseTokens rest filters.
Proof.
  intros Htok Hand Hor Hop.
  assert (∀ filters : list ParsedFilter,
    parseTokens (p :: o :: v :: rest) filters = parseTokens rest filters) as H.
  { intros filters. rewrite parseTokens_cons.
    by rewrite parseStep_unknown. }
  split; [|done]. unfold parseODataExpression. rewrite Htok. apply H.
Qed.

End Operators.

Section OperatorWitnesses.
Import IntegerNumber.

Lemma parsed_operator_never_mixed_case_witness :
  let f := mkFilter "age" FilterOperator.GT (VInt 18) in
  f ∈ parseFilterQueryParams (queryOf "age gt 18")
  ∧ operator f ≠ FilterOperator.NOT_IN
  ∧ operator f ≠ FilterOperator.IS_NULL
  ∧ operator f ≠ FilterOperator.IS_NOT_NULL.
Proof.
  assert (mkFilter "age" FilterOperator.GT (VInt 18)
          ∈ parseFilterQueryParams (queryOf "age gt 18")) as Hin.
  { vm_compute. left. }
  split; [exact Hin|].
  destruct (parsed_operator_never_mixed_case _ _ Hin) as (H1 & H2 & H3 & _).
  auto.
Defined.

Lemma unknown_operator_dropped_witness :
  parseODataExpression "name bogus x" = []
  ∧ parseFilterQueryParams (queryOf "name bogus x") = [].
Proof.
  split; [|vm_compute; reflexivity].
  refine (proj1 (unknown_operator_dropped
                   "name bogus x" "name" "bogus" "x" [] _ _ _ _)).
  - vm_compute. reflexivity.
  - vm_compute. discriminate.
  - vm_compute. discriminate.
  - vm_compute. intros H. by repeat (apply elem_of_cons in H as [H|H];
      [discriminate|]); apply elem_of_nil in H.
Defined.

End OperatorWitnesses.

(** ** The translator *)

Section TranslatorProperties.
Context {JSN : JSNumber}.

Lemma convert_single (f : ParsedFilter) :
  convertFiltersToFindOptionsWhere [f] = convertStep (mkWhere ∅ None) f.
Proof.
  unfold convertFiltersToFindOptionsWhere. simpl.
  by destruct (convertStep _ f).
Qed.

Lemma assign_empty (p : str) (predicate : TypeORM.FindOperator) :
  assign (mkWhere ∅ None) p predicate
  = if bool_decide (p = protoKey)
    then Returns (mkWhere ∅ (Some predicate))
    else Returns (mkWhere {[ p := predicate ]} None).
Proof.
  unfold assign. simpl. rewrite lookup_empty.
  by rewrite insert_empty.
Qed.

Lemma assign_empty_read (p : str) (predicate : TypeORM.FindOperator) :
  match assign (mkWhere ∅ None) p predicate with
  | Returns where_ =>
      match own where_ !! p with
      | Some x => Some x
      | None => proto where_
      end
  | DecidedByOperatorClass => None
  end = Some predicate.
Proof.
  rewrite assign_empty. case_bool_decide; simpl.
  - by rewrite lookup_empty.
  - by rewrite lookup_singleton_eq.
Qed.

(** Each filter either assigns its translation to its property or leaves
    the object as it is. *)
Lemma convertStep_translation (where_ : WhereObject) (f : ParsedFilter) :
  convertStep where_ f =
  match translation f with
  | Some predicate => assign where_ (prop f) predicate
  | None => Returns where_
  end.
Proof.
  destruct f as [p o v]. unfold translation. rewrite convert_single.
  unfold convertStep. cbn [prop operator value].
  repeat (case_bool_decide; [
    repeat match goal with
    | |- context [isNull ?x] => destruct (isNull x)
    | |- context [match ?x with VNull => _ | _ => _ end] => destruct x
    | |- context [match ?x with [] => _ | _ => _ end] => destruct x
    end; rewrite ?assign_empty_read; simpl; rewrite ?lookup_empty;
    reflexivity |]).
  by rewrite assign_empty_read.
Qed.

Lemma assign_plain (where_ : WhereObject) (p : str)
    (predicate : TypeORM.FindOperator) :
  proto where_ = None → p ≠ protoKey →
  assign where_ p predicate
  = Returns (mkWhere (<[p := predicate]> (own where_)) None).
Proof.
  destruct where_ as [entries pr]. simpl. intros -> Hp.
  unfold assign. simpl. destruct (entries !! p); [done|].
  by rewrite bool_decide_eq_false_2.
Qed.

Lemma assign_returns (where_ where' : WhereObject) (p : str)
    (predicate : TypeORM.FindOperator) :
  assign where_ p predicate = Returns where' →
  (own where' = <[p := predicate]> (own where_) ∧ proto where' = proto where_)
  ∨ (p = protoKey ∧ own where' = own where_
     ∧ proto where' = Some predicate).
Proof.
  unfold assign. destruct (own where_ !! p), (proto where_) eqn:E;
    try case_bool_decide; intros [= <-]; simpl; rewrite ?E; auto.
Qed.

Lemma convertStep_plain (entries : gmap str TypeORM.FindOperator)
    (f : ParsedFilter) :
  prop f ≠ protoKey →
  convertStep (mkWhere entries None) f
  = Returns (mkWhere (entryStep entries f) None).
Proof.
  intros Hp. rewrite convertStep_translation. unfold entryStep.
  destruct (translation f); [|done]. by rewrite assign_plain.
Qed.

Lemma forEach_plain (fs : list ParsedFilter)
    (entries : gmap str TypeORM.FindOperator) :
  withoutProtoKey fs →
  forEach fs (mkWhere entries None)
  = Returns (mkWhere (fold_left entryStep fs entries) None).
Proof.
  revert entries. induction fs as [|f fs IH]; intros entries H; [done|].
  apply Forall_cons in H as [Hf H].
  simpl. rewrite convertStep_plain by done. by apply IH.
Qed.

Lemma convert_plain (fs : list ParsedFilter) :
  withoutProtoKey fs →
  convertFiltersToFindOptionsWhere fs
  = Returns (mkWhere (fold_left entryStep fs ∅) None).
Proof. apply forEach_plain. Qed.

(** Reading off the translation of a concrete filter from the branch of
    the [switch] it takes. *)
Lemma translation_of_step (f : ParsedFilter)
    (predicate : TypeORM.FindOperator) :
  convertStep (mkWhere ∅ None) f
  = assign (mkWhere ∅ None) (prop f) predicate →
  translation f = Some predicate.
Proof.
  intros H. unfold translation. rewrite convert_single, H.
  apply assign_empty_read.
Qed.

Lemma entryStep_written (entries : gmap str TypeORM.FindOperator)
    (f : ParsedFilter) (predicate : TypeORM.FindOperator) :
  translation f = Some predicate →
  entryStep entries f = <[prop f := predicate]> entries.
Proof. unfold entryStep. by intros ->. Qed.

Lemma forEach_app (fs1 fs2 : list ParsedFilter) (where_ : WhereObject) :
  forEach (fs1 ++ fs2) where_ =
  match forEach fs1 where_ with
  | Returns where' => forEach fs2 where'
  | DecidedByOperatorClass => DecidedByOperatorClass
  end.
Proof.
  revert where_. induction fs1 as [|f fs1 IH]; intros where_; [done|].
  simpl. by destruct (convertStep where_ f).
Qed.

Lemma fold_entryStep_untouched (p : str) (fs : list ParsedFilter)
    (entries : gmap str TypeORM.FindOperator) :
  (∀ g, g ∈ fs → prop g = p → translation g = None) →
  fold_left entryStep fs entries !! p = entries !! p.
Proof.
  revert entries. induction fs as [|g fs IH]; intros entries H; [done|].
  simpl. rewrite IH by (intros g' Hg'; apply H; by right).
  unfold entryStep.
  destruct (translation g) as [predicate|] eqn:E; [|done].
  apply lookup_insert_ne. intros Hp.
  specialize (H g (list_elem_of_here _ _) Hp). congruence.
Qed.

(** A filter that fails the guard of [in] and [notIn] assigns nothing. *)
Lemma convertStep_guardFails (where_ : WhereObject) (f : ParsedFilter) :
  guardFails f → convertStep where_ f = Returns where_.
Proof.
  destruct f as [p o v]. intros [Hop Hv]. simpl in *.
  assert (∀ (A : Type) (a : jsvalue → list jsvalue → A) (b : A),
            match v with VArr (x :: xs) => a x xs | _ => b end = b) as Hm.
  { intros A a b. destruct Hv as [Hv| ->]; [|done].
    destruct v as [| | | | |[|x xs]]; try done. by destruct (Hv (x :: xs)). }
  destruct Hop as [-> | ->];
    repeat (case_bool_decide as E; [exfalso; by vm_compute in E|clear E]);
    (case_bool_decide as E; [clear E|by destruct E]);
    apply Hm.
Qed.

Lemma guardFails_translation (f : ParsedFilter) :
  guardFails f → translation f = None.
Proof.
  intros H. unfold translation.
  rewrite convert_single, convertStep_guardFails by done.
  simpl. by rewrite lookup_empty.
Qed.

Lemma entryStep_omitted (entries : gmap str TypeORM.FindOperator)
    (f : ParsedFilter) :
  guardFails f → entryStep entries f = entries.
Proof.
  intros H. unfold entryStep. by rewrite guardFails_translation.
Qed.

(** A filter whose operator is none of the enumerated ones reaches the
    [default] branch. *)
Lemma convertStep_default (where_ : WhereObject) (f : ParsedFilter) :
  operator f ∉ FilterOperator.values →
  convertStep where_ f = assign where_ (prop f) (TypeORM.Equal (value f)).
Proof.
  intros Hop. destruct f as [p o v]. simpl in *.
  repeat (case_bool_decide as E;
          [exfalso; apply Hop; rewrite E;
           unfold FilterOperator.values; set_solver | clear E]).
  reflexivity.
Qed.

Lemma default_translation (f : ParsedFilter) :
  operator f ∉ FilterOperator.values →
  translation f = Some (TypeORM.Equal (value f)).
Proof.
  intros H. unfold translation.
  rewrite convert_single, convertStep_default by done.
  apply assign_empty_read.
Qed.

(** A filter that assigns nothing can be left out of the sequence. *)
Lemma forEach_skip (fs1 fs2 : list ParsedFilter) (f : ParsedFilter)
    (where_ : WhereObject) :
  guardFails f →
  forEach (fs1 ++ f :: fs2) where_ = forEach (fs1 ++ fs2) where_.
Proof.
  intros H. rewrite !forEach_app.
  destruct (forEach fs1 where_) as [where'|]; [|done].
  simpl. by rewrite convertStep_guardFails.
Qed.

(** C5, amended.  For a filter sequence in which no prop is [__proto__]
    the translator returns a mapping keyed by property name, and the
    entry of a property is the translation of the last filter on it that
    yields a predicate: an [in] or [notIn] filter whose value is not a
    non-empty array writes nothing and leaves the earlier entry in
    place. *)
Theorem last_translated_filter_wins
    (fs1 fs2 : list ParsedFilter) (f : ParsedFilter)
    (predicate : TypeORM.FindOperator) :
  withoutProtoKey (fs1 ++ f :: fs2) →
  translation f = Some predicate →
  (∀ g, g ∈ fs2 → prop g = prop f → translation g = None) →
  ∃ where_ : WhereObject,
    convertFiltersToFindOptionsWhere (fs1 ++ f :: fs2) = Returns where_
    ∧ proto where_ = None
    ∧ own where_ !! prop f = Some predicate.
Proof.
  intros Hplain Hf Hlater. rewrite convert_plain by done.
  eexists. split; [reflexivity|]. split; [reflexivity|].
  cbn [own]. rewrite fold_left_app. simpl.
  rewrite fold_entryStep_untouched by done.
  unfold entryStep. rewrite Hf. apply lookup_insert_eq.
Qed.

(** C7, amended.  A filter with operator [in] or [notIn] whose value is
    not an array or is the empty array assigns nothing, and a filter
    whose operator is none of the enumerated ones assigns [Equal] of its
    value.  For a filter sequence in which no prop is [__proto__] the
    translator returns a mapping; leaving out a filter that fails the
    guard does not change it; a property all of whose filters fail the
    guard has no entry; and the entry of a filter with an operator outside
    the enumeration is [Equal] of its value unless a later filter on the
    property writes. *)
Theorem translator_omits_or_defaults :
  (∀ (where_ : WhereObject) (f : ParsedFilter),
     guardFails f → convertStep where_ f = Returns where_)
  ∧ (∀ (where_ : WhereObject) (f : ParsedFilter),
       operator f ∉ FilterOperator.values →
       convertStep where_ f
       = assign where_ (prop f) (TypeORM.Equal (value f)))
  ∧ ∀ fs : list ParsedFilter,
      withoutProtoKey fs →
      ∃ where_ : WhereObject,
        convertFiltersToFindOptionsWhere fs = Returns where_
        ∧ proto where_ = None
        ∧ (∀ fs1 f fs2, fs = fs1 ++ f :: fs2 → guardFails f →
             convertFiltersToFindOptionsWhere (fs1 ++ fs2) = Returns where_)
        ∧ (∀ f, f ∈ fs →
             (∀ g, g ∈ fs → prop g = prop f → guardFails g) →
             own where_ !! prop f = None)
        ∧ (∀ fs1 f fs2, fs = fs1 ++ f :: fs2 →
             operator f ∉ FilterOperator.values →
             (∀ g, g ∈ fs2 → prop g = prop f → translation g = None) →
             own where_ !! prop f = Some (TypeORM.Equal (value f))).
Proof.
  split; [apply convertStep_guardFails|].
  split; [apply convertStep_default|].
  intros fs Hplain.
  exists (mkWhere (fold_left entryStep fs ∅) None).
  split; [by apply convert_plain|]. split; [done|]. split; [|split].
  - intros fs1 f fs2 -> Hg.
    rewrite <- (convert_plain (fs1 ++ f :: fs2)) by done.
    symmetry. by apply forEach_skip.
  - intros f Hin Hall. cbn [own].
    rewrite fold_entryStep_untouched; [apply lookup_empty|].
    intros g Hg Hp. by apply guardFails_translation, Hall.
  - intros fs1 f fs2 -> Hop Hlater. cbn [own].
    rewrite fold_left_app. simpl.
    rewrite fold_entryStep_untouched by done.
    unfold entryStep. rewrite default_translation by done.
    apply lookup_insert_eq.
Qed.

End TranslatorProperties.

Section TranslatorWitnesses.
Import IntegerNumber.

(** C5, as stated, fails: a later [in] filter with an empty array does
    not overwrite the entry an earlier filter wrote for the property, so
    the entry is not the translation of the last filter on it. *)
Lemma later_filter_may_not_overwrite :
  ¬ (∀ (fs : list ParsedFilter) (p : str) (f : ParsedFilter)
       (where_ : WhereObject),
       lastOn p fs = Some f →
       convertFiltersToFindOptionsWhere fs = Returns where_ →
       own where_ !! p = translation f).
Proof.
  intros H.
  assert (guardFails (mkFilter "status" FilterOperator.IN (VArr [])))
    as Hg by (split; [by left|by right]).
  assert (convertFiltersToFindOptionsWhere
            [ mkFilter "status" FilterOperator.EQ (VStr "active");
              mkFilter "status" FilterOperator.IN (VArr []) ]
          = Returns (mkWhere
              {[ ("status" : str) := TypeORM.Equal (VStr "active") ]} None))
    as Hw.
  { rewrite convert_plain by (repeat constructor; discriminate).
    cbn [fold_left]. rewrite (entryStep_omitted _ _ Hg).
    by rewrite (entryStep_written _ _ (TypeORM.Equal (VStr "active")))
      by (by apply translation_of_step). }
  specialize (fun E => H _ ("status" : str)
                (mkFilter "status" FilterOperator.IN (VArr [])) _
                E Hw) as H'.
  specialize (H' eq_refl). clear H. rename H' into H.
  rewrite (guardFails_translation _ Hg) in H. cbn [own] in H.
  rewrite lookup_singleton_eq in H. discriminate H.
Qed.

Lemma last_translated_filter_wins_witness :
  ∃ where_ : WhereObject,
    convertFiltersToFindOptionsWhere
      ([ mkFilter "status" FilterOperator.EQ (VStr "active") ]
       ++ mkFilter "status" FilterOperator.NE (VStr "banned")
       :: [ mkFilter "status" FilterOperator.IN (VArr []);
            mkFilter "age" FilterOperator.GT (VInt 18) ])
    = Returns where_
    ∧ proto where_ = None
    ∧ own where_ !! ("status" : str)
      = Some (TypeORM.Not (TypeORM.Equal (VStr "banned"))).
Proof.
  apply (last_translated_filter_wins
           [ mkFilter "status" FilterOperator.EQ (VStr "active") ]
           [ mkFilter "status" FilterOperator.IN (VArr []);
             mkFilter "age" FilterOperator.GT (VInt 18) ]
           (mkFilter "status" FilterOperator.NE (VStr "banned"))).
  - repeat constructor; discriminate.
  - by apply translation_of_step.
  - intros g Hin Hp.
    apply elem_of_cons in Hin as [-> | Hin];
      [apply guardFails_translation; split; [by left|by right]|].
    apply elem_of_cons in Hin as [-> | Hin]; [discriminate Hp|].
    by apply elem_of_nil in Hin.
Defined.

(** C7, as stated, fails: the mapping keeps the entry that an earlier
    filter wrote for the property of an [in] filter whose value is not an
    array, as in [status eq active and status in banned]. *)
Lemma guard_failing_filter_keeps_entry :
  ¬ (∀ (fs : list ParsedFilter) (f : ParsedFilter) (where_ : WhereObject),
       f ∈ fs → guardFails f →
       convertFiltersToFindOptionsWhere fs = Returns where_ →
       own where_ !! prop f = None).
Proof.
  intros H.
  assert (guardFails (mkFilter "status" FilterOperator.IN (VStr "banned")))
    as Hg by (split; [by left|left; intros l; discriminate]).
  assert (convertFiltersToFindOptionsWhere
            [ mkFilter "status" FilterOperator.EQ (VStr "active");
              mkFilter "status" FilterOperator.IN (VStr "banned") ]
          = Returns (mkWhere
              {[ ("status" : str) := TypeORM.Equal (VStr "active") ]} None))
    as Hw.
  { rewrite convert_plain by (repeat constructor; discriminate).
    cbn [fold_left]. rewrite (entryStep_omitted _ _ Hg).
    by rewrite (entryStep_written _ _ (TypeORM.Equal (VStr "active")))
      by (by apply translation_of_step). }
  specialize (H _ _ _ (list_elem_of_further _ _ _ (list_elem_of_here _ _))
                Hg Hw).
  cbn [own prop] in H. rewrite lookup_singleton_eq in H. discriminate H.
Qed.

Lemma translator_omits_or_defaults_witness :
  let fs := [ mkFilter "role" FilterOperator.NOT_IN (VStr "admin");
              mkFilter "name" "like" (VStr "bob");
              mkFilter "role" FilterOperator.IN (VArr []) ] in
  ∃ where_ : WhereObject,
    convertFiltersToFindOptionsWhere fs = Returns where_
    ∧ proto where_ = None
    ∧ convertFiltersToFindOptionsWhere
        [ mkFilter "role" FilterOperator.NOT_IN (VStr "admin");
          mkFilter "name" "like" (VStr "bob") ] = Returns where_
    ∧ own where_ !! ("role" : str) = None
    ∧ own where_ !! ("name" : str) = Some (TypeORM.Equal (VStr "bob")).
Proof.
  intros fs.
  destruct translator_omits_or_defaults as (_ & _ & H).
  destruct (H fs) as (where_ & Hw & Hproto & Hskip & Hnone & Hdefault).
  { repeat constructor; discriminate. }
  exists where_. split; [exact Hw|]. split; [exact Hproto|].
  split; [|split].
  - apply (Hskip [ mkFilter "role" FilterOperator.NOT_IN (VStr "admin");
                   mkFilter "name" "like" (VStr "bob") ]
                 (mkFilter "role" FilterOperator.IN (VArr [])) []);
      [reflexivity|]. split; [by left|by right].
  - apply (Hnone (mkFilter "role" FilterOperator.IN (VArr [])));
      [by repeat constructor|].
    intros g Hin Hp.
    apply elem_of_cons in Hin as [-> | Hin];
      [split; [by right|left; intros l; discriminate]|].
    apply elem_of_cons in Hin as [-> | Hin]; [discriminate Hp|].
    apply elem_of_cons in Hin as [-> | Hin];
      [split; [by left|by right]|].
    by apply elem_of_nil in Hin.
  - apply (Hdefault [ mkFilter "role" FilterOperator.NOT_IN (VStr "admin") ]
                    (mkFilter "name" "like" (VStr "bob"))
                    [ mkFilter "role" FilterOperator.IN (VArr []) ]);
      [reflexivity| |].
    + simpl. unfold FilterOperator.values. intros Hin.
      by repeat (apply elem_of_cons in Hin as [Hin|Hin]; [discriminate|]);
        apply elem_of_nil in Hin.
    + intros g Hin Hp.
      apply elem_of_cons in Hin as [-> | Hin]; [discriminate Hp|].
      by apply elem_of_nil in Hin.
Defined.

End TranslatorWitnesses.

(** ** Round trip: trimming and tokenizing *)

Section Tokenizing.

Lemma dropWhile_head {A} (p : A → bool) (c : A) (s : list A) :
  p c = false → dropWhile p (c :: s) = c :: s.
Proof. intros H. simpl. by rewrite H. Qed.

Lemma head_rev {A} (l : list A) : head (rev l) = last l.
Proof. rewrite rev_alt. apply head_reverse. Qed.

(** A string that neither starts nor ends with white space is its own
    trimmed form. *)
Lemma trim_id (s : str) :
  (∀ c, head s = Some c → Char.isSpace c = false) →
  (∀ c, last s = Some c → Char.isSpace c = false) →
  trim s = s.
Proof.
  intros Hh Hl. unfold trim. destruct s as [|c s]; [done|].
  rewrite dropWhile_head by (by apply Hh).
  pose proof (head_rev (c :: s)) as Hr.
  destruct (rev (c :: s)) as [|d r] eqn:E.
  - apply (f_equal (@length _)) in E. by rewrite length_rev in E.
  - simpl in Hr. rewrite dropWhile_head by (apply Hl; by rewrite <- Hr).
    by rewrite <- E, rev_involutive.
Qed.

Lemma plainChar_not_space (c : ascii) :
  plainChar c = true → Char.isSpace c = false.
Proof.
  unfold plainChar. rewrite !andb_true_iff, !negb_true_iff. tauto.
Qed.

Lemma plainChar_not_quote (c : ascii) :
  plainChar c = true → isQuote c = false.
Proof.
  unfold plainChar. rewrite !andb_true_iff, !negb_true_iff. tauto.
Qed.

Lemma plainChar_not_paren (c : ascii) :
  plainChar c = true → c ≠ Char.lparen ∧ c ≠ Char.rparen.
Proof.
  unfold plainChar.
  rewrite !andb_true_iff, !negb_true_iff, !bool_decide_eq_false. tauto.
Qed.

Lemma forallb_plain_head (w : str) (c : ascii) :
  forallb plainChar w = true → head w = Some c → plainChar c = true.
Proof.
  destruct w as [|x w]; [done|]. simpl.
  intros [H _]%andb_true_iff [= <-]. done.
Qed.

Lemma forallb_plain_last (w : str) (c : ascii) :
  forallb plainChar w = true → last w = Some c → plainChar c = true.
Proof.
  rewrite forallb_forall. intros H Hl. apply H.
  apply list_elem_of_In. apply last_Some in Hl as [l' ->].
  apply elem_of_app. right. left.
Qed.

Lemma trim_plain (w : str) : forallb plainChar w = true → trim w = w.
Proof.
  intros H. apply trim_id; intros c Hc; apply plainChar_not_space.
  - by eapply forallb_plain_head.
  - by eapply forallb_plain_last.
Qed.

Lemma prevAfter_cons (prev : option ascii) (c : ascii) (w : str) :
  prevAfter (Some c) w = prevAfter prev (c :: w).
Proof.
  unfold prevAfter. rewrite last_cons. by destruct (last w).
Qed.

Lemma tokenizeStep_plain (prev : option ascii) (c : ascii)
    (toks : list str) (cur : str) (qc : option ascii) :
  plainChar c = true →
  tokenizeStep prev c (mkTok toks cur false qc)
  = mkTok toks (cur ++ [c]) false qc.
Proof.
  intros H. unfold tokenizeStep. simpl.
  rewrite (plainChar_not_quote c H), (plainChar_not_space c H). simpl.
  destruct (plainChar_not_paren c H) as [Hl Hr].
  by rewrite (bool_decide_eq_false_2 _ Hl), (bool_decide_eq_false_2 _ Hr).
Qed.

(** Outside quotes a run of plain characters is accumulated. *)
Lemma tokenizeLoop_plain (w rest : str) (prev : option ascii)
    (toks : list str) (cur : str) (qc : option ascii) :
  forallb plainChar w = true →
  tokenizeLoop prev (w ++ rest) (mkTok toks cur false qc)
  = tokenizeLoop (prevAfter prev w) rest (mkTok toks (cur ++ w) false qc).
Proof.
  revert prev cur. induction w as [|c w IH]; intros prev cur H.
  - simpl. by rewrite app_nil_r.
  - simpl in H. apply andb_true_iff in H as [Hc Hw]. simpl.
    rewrite tokenizeStep_plain by done. rewrite IH by done.
    by rewrite prevAfter_cons with (prev := prev), <- app_assoc.
Qed.

(** Inside single quotes every character but the single quote is
    accumulated. *)
Lemma tokenizeStep_inside (prev : option ascii) (c : ascii)
    (toks : list str) (cur : str) :
  c ≠ Char.squote →
  tokenizeStep prev c (mkTok toks cur true (Some Char.squote))
  = mkTok toks (cur ++ [c]) true (Some Char.squote).
Proof.
  intros H. unfold tokenizeStep. simpl.
  destruct (isQuote c && _); [|done].
  rewrite bool_decide_eq_false_2; [done|]. intros [= E]. done.
Qed.

Lemma tokenizeLoop_inside (s rest : str) (prev : option ascii)
    (toks : list str) (cur : str) :
  Char.squote ∉ s →
  tokenizeLoop prev (s ++ rest) (mkTok toks cur true (Some Char.squote))
  = tokenizeLoop (prevAfter prev s) rest
      (mkTok toks (cur ++ s) true (Some Char.squote)).
Proof.
  revert prev cur. induction s as [|c s IH]; intros prev cur H.
  - simpl. by rewrite app_nil_r.
  - simpl. rewrite tokenizeStep_inside by (intros ->; apply H; left).
    rewrite IH by (intros Hin; apply H; by right).
    by rewrite prevAfter_cons with (prev := prev), <- app_assoc.
Qed.

Lemma flush_word (w : str) (toks : list str) (b : bool) (qc : option ascii) :
  w ≠ [] → forallb plainChar w = true →
  flush (mkTok toks w b qc) = mkTok (toks ++ [w]) [] b qc.
Proof.
  intros Hne Hw. unfold flush. simpl. rewrite trim_plain by done.
  by destruct w.
Qed.

Lemma flush_empty (toks : list str) (b : bool) (qc : option ascii) :
  flush (mkTok toks [] b qc) = mkTok toks [] b qc.
Proof. reflexivity. Qed.

Lemma tokenizeStep_space (prev : option ascii)
    (toks : list str) (cur : str) (qc : option ascii) :
  tokenizeStep prev Char.space (mkTok toks cur false qc)
  = flush (mkTok toks cur false qc).
Proof. reflexivity. Qed.

Lemma tokenizeStep_open (toks : list str) :
  tokenizeStep (Some Char.space) Char.squote (mkTok toks [] false None)
  = mkTok toks [Char.squote] true (Some Char.squote).
Proof. reflexivity. Qed.

Lemma tokenizeStep_close (prev : option ascii) (toks : list str) (cur : str) :
  prev ≠ Some Char.backslash →
  tokenizeStep prev Char.squote (mkTok toks cur true (Some Char.squote))
  = mkTok (toks ++ [cur ++ [Char.squote]]) [] false None.
Proof.
  intros H. unfold tokenizeStep. simpl.
  by rewrite (bool_decide_eq_false_2 _ H).
Qed.

(** After a backslash the quote does not close the span: it is
    accumulated, and the span is pushed when the input ends. *)
Lemma tokenizeStep_escaped (toks : list str) (cur : str) :
  tokenizeStep (Some Char.backslash) Char.squote
    (mkTok toks cur true (Some Char.squote))
  = mkTok toks (cur ++ [Char.squote]) true (Some Char.squote).
Proof. reflexivity. Qed.

Lemma flush_quoted (s : str) (toks : list str) (b : bool)
    (qc : option ascii) :
  flush (mkTok toks ([Char.squote] ++ s ++ [Char.squote]) b qc)
  = mkTok (toks ++ [[Char.squote] ++ s ++ [Char.squote]]) [] b qc.
Proof.
  unfold flush. cbn [current tokens inQuotes quoteChar].
  rewrite trim_id; [done|by intros c [= <-]|].
  intros c. rewrite app_assoc, last_snoc. by intros [= <-].
Qed.

Lemma nonempty_length_pos (w : str) : w ≠ [] → (0 <? length w) = true.
Proof. by destruct w. Qed.

(** The tokens of [<prop> <operator> <value>]. *)
Lemma tokenize_expression (p o fv : str) :
  p ≠ [] → forallb plainChar p = true →
  o ≠ [] → forallb plainChar o = true →
  valueToken fv →
  tokenizeODataExpression (p ++ " " ++ o ++ " " ++ fv) = [p; o; fv].
Proof.
  intros Hp Hpp Ho Hop Hfv. unfold tokenizeODataExpression.
  rewrite tokenizeLoop_plain by done. simpl tokenizeLoop at 1.
  rewrite tokenizeStep_space, flush_word by done.
  rewrite tokenizeLoop_plain by done. simpl tokenizeLoop at 1.
  rewrite tokenizeStep_space, flush_word by done. simpl app.
  destruct Hfv as [(Hne & Hpl & _ & _) | (s & -> & Hq & _)].
  - rewrite <- (app_nil_r fv) at 1.
    rewrite tokenizeLoop_plain by done. simpl tokenizeLoop.
    rewrite flush_word by done. simpl.
    by rewrite !nonempty_length_pos.
  - simpl tokenizeLoop at 1. rewrite tokenizeStep_open.
    rewrite tokenizeLoop_inside by done. simpl tokenizeLoop.
    destruct (decide (prevAfter (Some Char.squote) s = Some Char.backslash))
      as [-> | Hb].
    + rewrite tokenizeStep_escaped.
      change ((Char.squote :: s) ++ [Char.squote])
        with ([Char.squote] ++ s ++ [Char.squote]).
      rewrite flush_quoted. simpl.
      by rewrite !nonempty_length_pos by done.
    + rewrite tokenizeStep_close by done. rewrite flush_empty. simpl.
      by rewrite !nonempty_length_pos by done.
Qed.

End Tokenizing.

(** ** Round trip: one expression *)

Section OneExpression.
Context {JSN : JSNumber}.

Lemma startsWith_cons (c q : ascii) (t : str) :
  startsWith (c :: t) [q] = bool_decide (c = q).
Proof.
  unfold startsWith. simpl. rewrite take_0.
  apply bool_decide_ext. split; [by intros [= ->]|by intros ->].
Qed.

Lemma endsWith_snoc (t : str) (c q : ascii) :
  endsWith (t ++ [c]) [q] = bool_decide (c = q).
Proof.
  unfold endsWith. rewrite rev_app_distr. simpl. apply startsWith_cons.
Qed.

Lemma plainChar_cases (c : ascii) :
  plainChar c = true →
  c ≠ Char.squote ∧ c ≠ Char.dquote ∧ c ≠ Char.lparen ∧ c ≠ Char.rparen.
Proof.
  intros H. destruct (plainChar_not_paren c H) as [Hl Hr].
  pose proof (plainChar_not_quote c H) as Hq. unfold isQuote in Hq.
  apply orb_false_iff in Hq as [H1 H2].
  apply bool_decide_eq_false in H1, H2. done.
Qed.

(** A bare word is read by the tail of [parseValue]: the literals, then
    the number test, then the token itself. *)
Lemma parseValue_bare (t : str) :
  t ≠ [] → forallb plainChar t = true →
  parseValue t =
  if bool_decide (t = "null") then VNull
  else if bool_decide (t = "true") then VBool true
  else if bool_decide (t = "false") then VBool false
  else if negb (isNaN (Number t)) && negb (bool_decide (t = []))
          && isFinite (Number t)
  then VNum (Number t)
  else VStr t.
Proof.
  intros Hne Hpl. destruct t as [|c t]; [done|].
  simpl in Hpl. apply andb_true_iff in Hpl as [Hc _].
  destruct (plainChar_cases c Hc) as (H1 & H2 & H3 & _).
  unfold parseValue. simpl length. cbn [parseValueFuel].
  change (list_ascii_of_string "'") with [Char.squote].
  change (list_ascii_of_string "(") with [Char.lparen].
  rewrite !startsWith_cons.
  rewrite (bool_decide_eq_false_2 _ H1), (bool_decide_eq_false_2 _ H2),
    (bool_decide_eq_false_2 _ H3).
  reflexivity.
Qed.

Lemma unescapeQuotes_cons (c : ascii) (s : str) :
  c ≠ Char.squote → unescapeQuotes (c :: s) = c :: unescapeQuotes s.
Proof.
  intros Hc. destruct s as [|c' s]; [done|].
  change (unescapeQuotes (c :: c' :: s))
    with (if bool_decide (c = Char.squote) && bool_decide (c' = Char.squote)
          then Char.squote :: unescapeQuotes s
          else c :: unescapeQuotes (c' :: s)).
  by rewrite (bool_decide_eq_false_2 _ Hc).
Qed.

Lemma unescapeQuotes_plain (s : str) :
  Char.squote ∉ s → unescapeQuotes s = s.
Proof.
  induction s as [|c s IH]; [done|]. intros Hn.
  rewrite unescapeQuotes_cons by (intros ->; apply Hn; left).
  rewrite IH; [done|]. intros ?; apply Hn; by right.
Qed.

(** A quoted string without single quote inside is read back as is. *)
Lemma parseValue_quoted (s : str) :
  Char.squote ∉ s →
  parseValue ([Char.squote] ++ s ++ [Char.squote]) = VStr s.
Proof.
  intros Hn. unfold parseValue.
  change ([Char.squote] ++ s ++ [Char.squote])
    with (Char.squote :: s ++ [Char.squote]).
  simpl length. cbn [parseValueFuel].
  rewrite bool_decide_eq_false_2 by discriminate.
  change (list_ascii_of_string "'") with [Char.squote].
  rewrite startsWith_cons, (app_comm_cons s [Char.squote] Char.squote),
    endsWith_snoc.
  rewrite !bool_decide_eq_true_2 by done. simpl.
  unfold slice_1_m1. simpl tail. rewrite removelast_last.
  by rewrite unescapeQuotes_plain.
Qed.

Lemma bareWord_check (w : str) :
  truthy w && forallb plainChar w
  && negb (bool_decide (toLowerCase w = "and"))
  && negb (bool_decide (toLowerCase w = "or")) = true →
  bareWord w.
Proof.
  rewrite !andb_true_iff, !negb_true_iff, !bool_decide_eq_false.
  unfold bareWord. intros [[[H1 H2] H3] H4]. by destruct w.
Qed.

(** The formatted text of a value of the round-trip domain is a value
    token that [parseValue] reads back as the value. *)
Lemma format_parseValue (v : jsvalue) :
  roundTripValue v →
  valueToken (formatFilterValue v)
  ∧ parseValue (formatFilterValue v) = v.
Proof.
  destruct v as [| |b|n|s|l]; simpl; try done.
  - intros _. split; [left; by apply bareWord_check|reflexivity].
  - intros _. destruct b;
      (split; [left; by apply bareWord_check|reflexivity]).
  - intros (Hw & H1 & H2 & H3 & Hn & Hnan & Hfin).
    split; [by left|]. destruct Hw as (Hne & Hpl & _).
    rewrite parseValue_bare by done.
    rewrite (bool_decide_eq_false_2 _ H1), (bool_decide_eq_false_2 _ H2),
      (bool_decide_eq_false_2 _ H3), (bool_decide_eq_false_2 _ Hne).
    by rewrite Hn, Hnan, Hfin.
  - intros [Hq Hs].
    rewrite (proj2 (includes_false s Char.squote) Hq), orb_false_r.
    destruct (_ || _).
    + unfold quoted.
      rewrite escapeQuotes_plain by done.
      split; [right; by exists s|by apply parseValue_quoted].
    + destruct Hs as [Hw (H1 & H2 & H3 & Hnum)].
      split; [by left|]. destruct Hw as (Hne & Hpl & _).
      rewrite parseValue_bare by done.
      rewrite (bool_decide_eq_false_2 _ H1), (bool_decide_eq_false_2 _ H2),
        (bool_decide_eq_false_2 _ H3).
      by destruct Hnum as [-> | ->]; rewrite ?andb_false_r.
Qed.

End OneExpression.

Section OneFilter.
Context {JSN : JSNumber}.

Lemma roundTripOperators_facts (o : str) :
  o ∈ roundTripOperators →
  toLowerCase o = o ∧ o ∈ FilterOperator.values
  ∧ o ≠ FilterOperator.IS_NULL ∧ o ≠ FilterOperator.IS_NOT_NULL
  ∧ o ≠ FilterOperator.NOT_IN
  ∧ o ≠ [] ∧ forallb plainChar o = true.
Proof.
  unfold roundTripOperators, FilterOperator.values. intros H.
  repeat (apply elem_of_cons in H as [-> | H];
          [repeat split; try discriminate; try reflexivity; set_solver|]).
  by apply elem_of_nil in H.
Qed.

Lemma roundTripOperators_not_joiner (o : str) :
  o ∈ roundTripOperators → toLowerCase o ≠ "and" ∧ toLowerCase o ≠ "or".
Proof.
  unfold roundTripOperators. intros H.
  repeat (apply elem_of_cons in H as [-> | H]; [by split|]).
  by apply elem_of_nil in H.
Qed.

Lemma valueToken_not_paren (fv : str) : valueToken fv → fv ≠ "(".
Proof.
  intros [(_ & Hpl & _) | (s & E & _)] Hp; subst fv; discriminate.
Qed.

Lemma parseTokens_triplet (p o fv : str) :
  toLowerCase p ≠ "and" → toLowerCase p ≠ "or" →
  o ∈ roundTripOperators → fv ≠ "(" →
  parseTokens [p; o; fv] [] = [mkFilter p o (parseValue fv)].
Proof.
  intros Hand Hor Ho Hfv.
  destruct (roundTripOperators_facts o Ho) as (Hl & Hv & _ & _ & Hn & _).
  rewrite parseTokens_cons. unfold parseStep.
  rewrite (bool_decide_eq_false_2 _ Hand), (bool_decide_eq_false_2 _ Hor).
  simpl orb. cbv iota. rewrite Hl.
  rewrite (bool_decide_eq_false_2 _ Hn), (bool_decide_eq_false_2 _ Hfv),
    (bool_decide_eq_true_2 _ Hv).
  by destruct (bool_decide (o = FilterOperator.IN)).
Qed.

(** The serialized text of a filter of the round-trip domain. *)
Lemma filterToODataExpression_triplet (d : ODataFilter) :
  operator d ∈ roundTripOperators →
  filterToODataExpression d
  = prop d ++ " " ++ operator d ++ " " ++ formatFilterValue (value d).
Proof.
  intros Ho. destruct d as [p o v]. simpl in *.
  destruct (roundTripOperators_facts o Ho) as (_ & _ & H1 & H2 & _).
  rewrite (bool_decide_eq_false_2 _ H1), (bool_decide_eq_false_2 _ H2).
  by destruct (_ || _).
Qed.

(** One serialized filter is parsed back to the filter itself. *)
Lemma parseODataExpression_filter (d : ODataFilter) :
  roundTripFilter d →
  parseODataExpression (filterToODataExpression d) = [d].
Proof.
  intros ((Hne & Hpl & Hand & Hor) & Ho & Hv).
  destruct (format_parseValue _ Hv) as [Htok Hparse].
  destruct (roundTripOperators_facts _ Ho) as (_ & _ & _ & _ & _ & Hone & Hopl).
  rewrite filterToODataExpression_triplet by done.
  unfold parseODataExpression. rewrite tokenize_expression by done.
  fold (parseTokens [prop d; operator d; formatFilterValue (value d)] []).
  rewrite parseTokens_triplet by eauto using valueToken_not_paren.
  rewrite Hparse. by destruct d.
Qed.

End OneFilter.

(** ** Round trip: the splitting loop *)

Section Joiners.

Lemma takeWhile_app_stop {A} (p : A → bool) (t : list A) (q : A) (K : list A) :
  p q = false → takeWhile p (t ++ q :: K) = takeWhile p t.
Proof.
  intros Hq. induction t as [|c t IH]; simpl; [by rewrite Hq|].
  destruct (p c); [by rewrite IH|done].
Qed.

Lemma dropWhile_app_stop {A} (p : A → bool) (t : list A) (q : A) (K : list A) :
  p q = false → dropWhile p (t ++ q :: K) = dropWhile p t ++ q :: K.
Proof.
  intros Hq. induction t as [|c t IH]; simpl; [by rewrite Hq|].
  by destruct (p c).
Qed.

Lemma matchJoiner_None (word u : str) :
  matchJoiner word u = None ↔
  truthy (takeWhile Char.isSpace u)
  && (bool_decide
        (toLowerCase (take (length word) (dropWhile Char.isSpace u)) = word)
      && truthy (takeWhile Char.isSpace
                   (drop (length word) (dropWhile Char.isSpace u))))
  = false.
Proof.
  unfold matchJoiner. rewrite <- andb_assoc. by destruct (_ && _).
Qed.

Lemma toLowerCase_app_cons (r : str) (q : ascii) (k word : str) :
  toLowerCase (r ++ q :: k) = word → Char.toLower q ∈ word.
Proof.
  intros <-. unfold toLowerCase. rewrite map_app. simpl.
  apply elem_of_app. right. left.
Qed.

(** A word that is not the keyword, followed by nothing or by a character
    that is not part of the keyword, starts no joiner. *)
Lemma joins_word (word w K : str) :
  forallb (fun c => negb (Char.isSpace c)) w = true →
  toLowerCase w ≠ word →
  (K = [] ∨ ∃ q K', K = q :: K' ∧ Char.toLower q ∉ word) →
  bool_decide (toLowerCase (take (length word) (w ++ K)) = word)
  && truthy (takeWhile Char.isSpace (drop (length word) (w ++ K))) = false.
Proof.
  intros Hw Hne HK. set (n := length word).
  destruct (Nat.lt_trichotomy n (length w)) as [Hlt | [Heq | Hgt]].
  - rewrite drop_app_le by lia.
    destruct (drop n w) as [|d r] eqn:E.
    { apply (f_equal length) in E. rewrite length_drop in E. simpl in E. lia. }
    assert (d ∈ w) as Hd.
    { apply (subseteq_drop n w). rewrite E. left. }
    rewrite forallb_forall in Hw. apply list_elem_of_In, Hw in Hd.
    apply negb_true_iff in Hd. simpl. rewrite Hd. apply andb_false_r.
  - rewrite take_app_length' by done.
    by rewrite (bool_decide_eq_false_2 _ Hne).
  - rewrite bool_decide_eq_false_2; [done|].
    rewrite take_app_ge by lia.
    destruct HK as [-> | (q & K' & -> & Hq)].
    + by rewrite take_nil, app_nil_r.
    + destruct (n - length w) as [|m] eqn:E; [lia|]. simpl.
      by intros ?%toLowerCase_app_cons.
Qed.

Lemma matchJoiner_word (word w K : str) (sp : ascii) :
  Char.isSpace sp = true → w ≠ [] →
  forallb (fun c => negb (Char.isSpace c)) w = true →
  toLowerCase w ≠ word →
  (K = [] ∨ ∃ q K', K = q :: K' ∧ Char.toLower q ∉ word) →
  matchJoiner word (sp :: w ++ K) = None.
Proof.
  intros Hsp Hne Hw Hlow HK. apply matchJoiner_None.
  destruct w as [|c w]; [done|].
  pose proof Hw as Hw'. simpl in Hw'.
  apply andb_true_iff in Hw' as [Hc%negb_true_iff _].
  simpl takeWhile. simpl dropWhile. rewrite Hsp, Hc. simpl truthy.
  rewrite andb_true_l. by apply (joins_word word (c :: w) K).
Qed.

(** Appending a character that is neither white space nor part of the
    keyword creates no joiner. *)
Lemma matchJoiner_extend (word t : str) (q : ascii) (K : str) :
  Char.isSpace q = false → Char.toLower q ∉ word →
  matchJoiner word t = None →
  matchJoiner word (t ++ q :: K) = None.
Proof.
  intros Hq Hnot. rewrite !matchJoiner_None.
  rewrite takeWhile_app_stop, dropWhile_app_stop by done.
  destruct (truthy (takeWhile Char.isSpace t)); [|done].
  rewrite !andb_true_l. set (r := dropWhile Char.isSpace t).
  set (n := length word). intros H.
  destruct (Nat.lt_trichotomy n (length r)) as [Hlt | [Heq | Hgt]].
  - rewrite take_app_le, drop_app_le by lia.
    destruct (drop n r) as [|d r'] eqn:E.
    { apply (f_equal length) in E. rewrite length_drop in E. simpl in E. lia. }
    simpl in *. by destruct (Char.isSpace d).
  - rewrite drop_app_length' by done. simpl. rewrite Hq. apply andb_false_r.
  - rewrite bool_decide_eq_false_2; [done|].
    rewrite take_app_ge by lia.
    destruct (n - length r) as [|m] eqn:E; [lia|]. simpl.
    by intros ?%toLowerCase_app_cons.
Qed.

Lemma joinerAt_false (u : str) :
  joinerAt u = false ↔ matchJoiner "and" u = None ∧ matchJoiner "or" u = None.
Proof.
  unfold joinerAt.
  destruct (matchJoiner "and" u), (matchJoiner "or" u);
    split; intros H; try done; by destruct H.
Qed.

Lemma joinerAt_nonspace (c : ascii) (u : str) :
  Char.isSpace c = false → joinerAt (c :: u) = false.
Proof.
  intros Hc. apply joinerAt_false.
  split; apply matchJoiner_None; simpl; by rewrite Hc.
Qed.

End Joiners.

Section Segments.

Lemma safeBefore_nil (K : str) : safeBefore K [].
Proof. intros t1 t2 E Hne. symmetry in E. by apply app_eq_nil in E as [_ ->]. Qed.

Lemma safeBefore_tail (K : str) (c : ascii) (e : str) :
  safeBefore K (c :: e) → safeBefore K e.
Proof. intros H t1 t2 -> Hne. by apply (H (c :: t1) t2). Qed.

Lemma safeBefore_app (K e1 e2 : str) :
  safeBefore (e2 ++ K) e1 → safeBefore K e2 → safeBefore K (e1 ++ e2).
Proof.
  intros H1 H2 t1 t2 E Hne.
  apply app_eq_app in E as [l [[E1 E2] | [E1 E2]]]; subst.
  - destruct l as [|c l].
    + simpl. by apply (H2 [] e2).
    + rewrite <- app_assoc. by apply (H1 t1 (c :: l)).
  - by apply (H2 l t2).
Qed.

Lemma safeBefore_nospace (K w : str) :
  forallb (fun c => negb (Char.isSpace c)) w = true → safeBefore K w.
Proof.
  intros Hw t1 t2 -> Hne. destruct t2 as [|c t2]; [done|].
  apply joinerAt_nonspace. rewrite forallb_app in Hw.
  apply andb_true_iff in Hw as [_ Hw]. simpl in Hw.
  by apply andb_true_iff in Hw as [?%negb_true_iff _].
Qed.

Lemma safeBefore_single (K : str) (c : ascii) :
  joinerAt (c :: K) = false → safeBefore K [c].
Proof.
  intros H t1 t2 E Hne. destruct t1 as [|c' t1].
  - simpl in E. by subst t2.
  - injection E as -> E. symmetry in E. by apply app_eq_nil in E as [_ ->].
Qed.

Lemma noJoinerIn_suffix (t1 t2 : str) :
  noJoinerIn (t1 ++ t2) = true → noJoinerIn t2 = true.
Proof.
  induction t1 as [|c t1 IH]; [done|]. simpl.
  intros [_ H]%andb_true_iff. by apply IH.
Qed.

Lemma safeBefore_content (K s : str) :
  noJoinerIn s = true → safeBefore (Char.squote :: K) s.
Proof.
  intros Hs t1 t2 -> Hne. apply noJoinerIn_suffix in Hs.
  destruct t2 as [|c t2]; [done|]. simpl in Hs.
  apply andb_true_iff in Hs as [Hj%negb_true_iff _].
  apply joinerAt_false in Hj as [Ha Ho].
  apply joinerAt_false.
  split; apply matchJoiner_extend; try done; vm_compute;
    intros H; by repeat (apply elem_of_cons in H as [H|H]; [discriminate|]);
      apply elem_of_nil in H.
Qed.

Lemma plain_nospace (w : str) :
  forallb plainChar w = true →
  forallb (fun c => negb (Char.isSpace c)) w = true.
Proof.
  rewrite !forallb_forall. intros H c Hc.
  apply negb_true_iff, plainChar_not_space. by apply H.
Qed.

Lemma openContext_cases (K word : str) :
  Char.space ∉ word → openContext K →
  K = [] ∨ ∃ q K', K = q :: K' ∧ Char.toLower q ∉ word.
Proof.
  intros Hw [-> | [K' ->]]; [by left|]. right. by exists Char.space, K'.
Qed.

Lemma space_not_in_and : Char.space ∉ ("and" : str).
Proof.
  intros H. by repeat (apply elem_of_cons in H as [H|H]; [discriminate|]);
    apply elem_of_nil in H.
Qed.

Lemma space_not_in_or : Char.space ∉ ("or" : str).
Proof.
  intros H. by repeat (apply elem_of_cons in H as [H|H]; [discriminate|]);
    apply elem_of_nil in H.
Qed.

(** A space followed by a word that is neither [and] nor [or] starts no
    joiner, whatever follows the word in an open context. *)
Lemma joinerAt_word (w K : str) :
  w ≠ [] → forallb plainChar w = true →
  toLowerCase w ≠ "and" → toLowerCase w ≠ "or" →
  openContext K →
  joinerAt (Char.space :: w ++ K) = false.
Proof.
  intros Hne Hpl Hand Hor HK. apply joinerAt_false.
  split; apply matchJoiner_word;
    eauto using plain_nospace, openContext_cases,
      space_not_in_and, space_not_in_or.
Qed.

(** A value token is scanned without a joiner in an open context. *)
Lemma safeBefore_valueToken (K fv : str) :
  valueToken fv → openContext K →
  safeBefore K fv ∧ joinerAt (Char.space :: fv ++ K) = false.
Proof.
  intros [(Hne & Hpl & Hand & Hor) | (s & -> & Hq & Hj)] HK.
  - split; [by apply safeBefore_nospace, plain_nospace|].
    by apply joinerAt_word.
  - split.
    + apply (safeBefore_app K [Char.squote] (s ++ [Char.squote])).
      { by apply safeBefore_nospace. }
      apply safeBefore_app; [by apply safeBefore_content|].
      by apply safeBefore_nospace.
    + apply joinerAt_false. split; apply matchJoiner_None; reflexivity.
Qed.

End Segments.

Section Splitting.
Context {JSN : JSNumber}.

Lemma valueToken_last (fv : str) :
  valueToken fv → ∃ c, last fv = Some c ∧ Char.isSpace c = false.
Proof.
  intros [(Hne & Hpl & _) | (s & -> & _)].
  - destruct (last fv) as [c|] eqn:E.
    + exists c. split; [done|].
      by eapply plainChar_not_space, forallb_plain_last.
    + by apply last_None in E.
  - exists Char.squote. split; [|done].
    by rewrite app_assoc, last_snoc.
Qed.

(** The serialized text of a filter of the round-trip domain is a
    segment. *)
Lemma expression_segment (d : ODataFilter) :
  roundTripFilter d → segment (filterToODataExpression d).
Proof.
  intros ((Hne & Hpl & Hand & Hor) & Ho & Hv).
  destruct (format_parseValue _ Hv) as [Htok _].
  destruct (roundTripOperators_facts _ Ho)
    as (Hlow & _ & _ & _ & _ & Hone & Hopl).
  rewrite filterToODataExpression_triplet by done.
  destruct d as [p o v]. cbn [prop operator value] in *.
  set (fv := formatFilterValue v) in *.
  change (list_ascii_of_string " ") with [Char.space].
  destruct p as [|c p]; [done|].
  assert (Char.isSpace c = false) as Hc.
  { simpl in Hpl. apply andb_true_iff in Hpl as [H _].
    by apply plainChar_not_space. }
  destruct (valueToken_last fv Htok) as (cl & Hcl & Hsp).
  repeat split.
  - by exists c, (p ++ [Char.space] ++ o ++ [Char.space] ++ fv).
  - apply trim_id.
    + by intros c' [= <-].
    + intros c'. rewrite !app_assoc, last_app, Hcl. by intros [= <-].
  - unfold isMarker. apply orb_false_iff.
    assert (Char.space ∈ (c :: p) ++ [Char.space] ++ o ++ [Char.space] ++ fv)
      as Hin by (apply elem_of_app; right; left).
    split; apply bool_decide_eq_false; intros E; rewrite E in Hin;
      refute_elem Hin.
  - intros K HK. destruct (safeBefore_valueToken K fv Htok HK) as [Hs Hj].
    apply safeBefore_app; [by apply safeBefore_nospace, plain_nospace|].
    apply safeBefore_app.
    { apply safeBefore_single. rewrite <- !app_assoc.
      destruct (roundTripOperators_not_joiner _ Ho) as [Hoa Hoo].
      apply joinerAt_word; try done. right. by eexists. }
    apply safeBefore_app; [by apply safeBefore_nospace, plain_nospace|].
    apply safeBefore_app; [by apply safeBefore_single|done].
Qed.

Lemma splitStep_none (c : ascii) (r cur : str) (parts : list str) :
  joinerAt (c :: r) = false →
  splitStep c r cur parts = (r, cur ++ [c], parts).
Proof.
  intros [Ha Ho]%joinerAt_false. unfold splitStep. by rewrite Ha, Ho.
Qed.

(** The loop scans a safe text into [current]. *)
Lemma splitAll_safe (K e cur : str) (parts : list str) :
  safeBefore K e →
  splitAll (e ++ K) cur parts = splitAll K (cur ++ e) parts.
Proof.
  revert cur. induction e as [|c e IH]; intros cur H.
  - by rewrite app_nil_r.
  - simpl. rewrite splitAll_cons, splitStep_none.
    + rewrite IH by (by eapply safeBefore_tail).
      by rewrite <- app_assoc.
    + by apply (H [] (c :: e)).
Qed.

(** At the separator the loop closes the current part. *)
Lemma splitStep_separator (l : LogicalOperator) (c0 : ascii) (R e : str)
    (parts : list str) :
  Char.isSpace c0 = false → trim e = e → e ≠ [] →
  splitStep Char.space (logicalText l ++ " " ++ c0 :: R) e parts
  = (c0 :: R, [], parts ++ [e; markerOf l]).
Proof.
  intros Hc Ht Hne. unfold splitStep, pushPart. rewrite Ht.
  assert (truthy e = true) as -> by (by destruct e).
  destruct l; unfold matchJoiner; simpl; rewrite Hc; reflexivity.
Qed.

Lemma segment_join_head (sep e : str) (es : list str) :
  segment e →
  ∃ c0 R, join sep (e :: es) = c0 :: R ∧ Char.isSpace c0 = false.
Proof.
  intros ((c & e' & -> & Hc) & _). destruct es; simpl; eauto.
Qed.

(** The splitting loop cuts the joined segments apart again. *)
Lemma splitAll_segments (l : LogicalOperator) (es : list str) (e : str)
    (parts : list str) :
  Forall segment (e :: es) →
  ∃ ps cur,
    splitAll (join (" " ++ logicalText l ++ " ") (e :: es)) [] parts
    = (ps, cur)
    ∧ truthy (trim cur) = true
    ∧ ps ++ [trim cur] = parts ++ intersperse (markerOf l) (e :: es).
Proof.
  revert e parts. induction es as [|e' es IH]; intros e parts Hall.
  - apply Forall_cons in Hall as [((c & e0 & He & Hc) & Ht & _ & Hs) _].
    exists parts, e. simpl join. rewrite <- (app_nil_r e) at 1.
    rewrite splitAll_safe by (apply Hs; by left).
    rewrite Ht. split; [done|]. split; [by subst e|done].
  - apply Forall_cons in Hall as [((c & e0 & He & Hc) & Ht & _ & Hs) Hall].
    pose proof Hall as Hall'.
    apply Forall_cons in Hall' as [Hseg' _].
    destruct (segment_join_head (" " ++ logicalText l ++ " ") e' es Hseg')
      as (c0 & R & HR & Hc0).
    change (join (" " ++ logicalText l ++ " ") (e :: e' :: es))
      with (e ++ (" " ++ logicalText l ++ " ")
              ++ join (" " ++ logicalText l ++ " ") (e' :: es)).
    rewrite splitAll_safe by (apply Hs; right; by eexists).
    destruct (IH e' (parts ++ [e; markerOf l]) Hall)
      as (ps & cur & Hsplit & Htr & Hps).
    exists ps, cur. rewrite HR in *.
    replace ((" " ++ logicalText l ++ " ") ++ c0 :: R)
      with (Char.space :: (logicalText l ++ " " ++ c0 :: R))
      by (by rewrite <- !app_assoc).
    change ([] ++ e) with e.
    rewrite splitAll_cons, splitStep_separator by (by subst e).
    split; [done|]. split; [done|].
    rewrite Hps, <- app_assoc. simpl. by destruct es.
Qed.

Lemma splitParts_segments (l : LogicalOperator) (es : list str) (e : str) :
  Forall segment (e :: es) →
  splitParts (join (" " ++ logicalText l ++ " ") (e :: es))
  = intersperse (markerOf l) (e :: es).
Proof.
  intros H. destruct (splitAll_segments l es e [] H)
    as (ps & cur & Hsplit & Htr & Hps).
  unfold splitParts. fold (splitAll (join (" " ++ logicalText l ++ " ")
    (e :: es)) [] []). by rewrite Hsplit, Htr.
Qed.

Lemma collectFilters_intersperse (m : str) (es : list str)
    (acc : list ParsedFilter) :
  isMarker m = true → Forall segment es →
  collectFilters (intersperse m es) acc
  = acc ++ concat (map parseODataExpression es).
Proof.
  intros Hm. revert acc. induction es as [|e es IH]; intros acc Hall.
  - simpl. by rewrite app_nil_r.
  - apply Forall_cons in Hall as [He Hall].
    assert (isMarker e = false) as Hn by apply He.
    destruct es as [|e' es].
    + simpl. by rewrite Hn, app_nil_r.
    + change (intersperse m (e :: e' :: es))
        with (e :: m :: intersperse m (e' :: es)).
      cbn [collectFilters]. rewrite Hn, Hm. simpl negb. cbv iota.
      rewrite IH by done. simpl. by rewrite <- app_assoc.
Qed.

End Splitting.

(** ** Round trip *)

Section RoundTrip.
Context {JSN : JSNumber}.

Lemma concat_parse_expressions (D : list ODataFilter) :
  Forall roundTripFilter D →
  concat (map parseODataExpression (map filterToODataExpression D)) = D.
Proof.
  induction 1 as [|d D Hd _ IH]; [done|]. simpl.
  by rewrite parseODataExpression_filter, IH.
Qed.

Lemma expressions_segments (D : list ODataFilter) :
  Forall roundTripFilter D →
  Forall segment (map filterToODataExpression D).
Proof.
  induction 1 as [|d D Hd _ IH]; constructor; [|done].
  by apply expression_segment.
Qed.

(** C1, amended.  For every filter descriptor sequence whose props are
    bare words, whose operators are among [eq ne gt ge lt le contains
    startswith endswith in], and whose values are scalars of the
    round-trip domain ([roundTripValue]), and for either logical operator,
    parsing the serialized form returns the sequence itself,
    field for field and in order. *)
Theorem round_trip (D : list ODataFilter) (l : LogicalOperator) :
  Forall roundTripFilter D →
  parseFilterQueryParams (queryFrom (buildFilterQueryParams D l)) = D.
Proof.
  intros HD. unfold buildFilterQueryParams, queryFrom.
  destruct D as [|d D].
  - simpl. rewrite lookup_empty. unfold parseFilterQueryParams.
    by rewrite lookup_singleton_eq.
  - rewrite bool_decide_eq_false_2 by done. cbv zeta.
    rewrite lookup_singleton_eq. unfold parseFilterQueryParams.
    rewrite lookup_singleton_eq.
    pose proof (expressions_segments _ HD) as Hseg.
    change (map filterToODataExpression (d :: D))
      with (filterToODataExpression d :: map filterToODataExpression D)
      in *.
    pose proof Hseg as Hhead. apply Forall_cons in Hhead as [Hhead _].
    destruct (segment_join_head (" " ++ logicalText l ++ " ") _
                (map filterToODataExpression D) Hhead) as (c0 & R & HR & _).
    rewrite HR at 1. simpl negb. cbv iota.
    rewrite splitParts_segments by done.
    rewrite collectFilters_intersperse by (by destruct l).
    apply (concat_parse_expressions (d :: D) HD).
Qed.

Lemma roundTripValue_quoted (s : str) :
  Char.squote ∉ s →
  includes s Char.space || includes s Char.dquote
  || includes s Char.at_sign = true →
  noJoinerIn s = true →
  roundTripValue (VStr s).
Proof. intros H1 H2 H3. simpl. by rewrite H2. Qed.

Lemma roundTripValue_bare (s : str) :
  Char.squote ∉ s →
  includes s Char.space || includes s Char.dquote
  || includes s Char.at_sign = false →
  bareWord s → readsAsString s →
  roundTripValue (VStr s).
Proof. intros H1 H2 H3 H4. simpl. by rewrite H2. Qed.

End RoundTrip.

Section RoundTripWitness.
Import IntegerNumber.

(** C1, as stated, fails: a string value that reads as a number is
    emitted bare and parsed back as the number. *)
Lemma round_trip_retypes_numeric_string :
  ¬ (∀ D : list ODataFilter,
       Forall (fun f => plainValue (value f) = true) D →
       roundTrip D And = D).
Proof.
  intros H.
  specialize (H [mkFilter "age" FilterOperator.EQ (VStr "18")]).
  assert (roundTrip [mkFilter "age" FilterOperator.EQ (VStr "18")] And
          = [mkFilter "age" FilterOperator.EQ (VInt 18)]) as E
    by (vm_compute; reflexivity).
  rewrite E in H. discriminate H. by repeat constructor.
Qed.

(** Further inputs of that domain that do not survive: an
    [isNull] descriptor is lost, a two-element array comes back with
    three elements, and a quoted string that holds a joiner is cut. *)
Example round_trip_other_losses :
  roundTrip [mkFilter "deletedAt" FilterOperator.IS_NULL VNull] And = []
  ∧ roundTrip [mkFilter "role" FilterOperator.IN
                 (VArr [VStr "admin"; VStr "editor"])] And
    = [mkFilter "role" FilterOperator.IN
         (VArr [VStr "admin"; VStr ""; VStr "editor"])]
  ∧ roundTrip [mkFilter "title" FilterOperator.EQ (VStr "rock and roll")] And
    = [mkFilter "title" FilterOperator.EQ (VStr "'rock")].
Proof. repeat split; vm_compute; reflexivity. Qed.

(** Strings that the formatter leaves bare and the parser reads as
    something else, or not at all. *)
Example round_trip_bare_string_losses :
  roundTrip [mkFilter "name" FilterOperator.EQ (VStr "null")] And
  = [mkFilter "name" FilterOperator.EQ VNull]
  ∧ roundTrip [mkFilter "name" FilterOperator.EQ (VStr "true")] And
    = [mkFilter "name" FilterOperator.EQ (VBool true)]
  ∧ roundTrip [mkFilter "name" FilterOperator.EQ (VStr "")] And = []
  ∧ roundTrip [mkFilter "kind" FilterOperator.EQ (VStr "x(y")] And
    = [mkFilter "kind" FilterOperator.EQ (VStr "x")]
  ∧ roundTrip [ mkFilter "kind" FilterOperator.EQ (VStr "or");
                mkFilter "age" FilterOperator.EQ (VInt 1) ] And
    = [mkFilter "age" FilterOperator.EQ (VInt 1)].
Proof. repeat split; vm_compute; reflexivity. Qed.

Lemma round_trip_witness :
  let D := [ mkFilter "age" FilterOperator.GT (VInt 18);
             mkFilter "status" FilterOperator.EQ (VStr "active");
             mkFilter "email" FilterOperator.EQ (VStr "a@b.com");
             mkFilter "name" FilterOperator.CONTAINS (VStr "John Smith");
             mkFilter "deletedAt" FilterOperator.EQ VNull;
             mkFilter "verified" FilterOperator.NE (VBool true);
             mkFilter "offset" FilterOperator.LE (VInt (-5));
             mkFilter "path" FilterOperator.STARTSWITH (VStr "my dir\") ] in
  parseFilterQueryParams (queryFrom (buildFilterQueryParams D And)) = D
  ∧ parseFilterQueryParams (queryFrom (buildFilterQueryParams D Or)) = D.
Proof.
  intros D.
  assert (Forall roundTripFilter D) as HD.
  { repeat apply Forall_cons_2; try apply Forall_nil_2;
      (split; [by apply bareWord_check|]);
      (split; [by apply (bool_decide_unpack _)|]).
    - repeat split; try done; by apply bareWord_check.
    - apply roundTripValue_bare.
      + by apply (bool_decide_unpack _).
      + reflexivity.
      + by apply bareWord_check.
      + repeat split; try done. by left.
    - apply roundTripValue_quoted.
      + by apply (bool_decide_unpack _).
      + reflexivity.
      + reflexivity.
    - apply roundTripValue_quoted.
      + by apply (bool_decide_unpack _).
      + reflexivity.
      + reflexivity.
    - done.
    - done.
    - repeat split; try done; by apply bareWord_check.
    - apply roundTripValue_quoted.
      + by apply (bool_decide_unpack _).
      + reflexivity.
      + reflexivity. }
  split; apply (round_trip D _ HD).
Defined.

End RoundTripWitness.

(** * Further properties *)

(** ** The tokenizer *)

Section TokenizerInvariant.


Lemma wordChar_not_space (c : ascii) :
  wordChar c = true → Char.isSpace c = false.
Proof.
  unfold wordChar. rewrite !andb_true_iff, !negb_true_iff. tauto.
Qed.

Lemma trim_word (w : str) : forallb wordChar w = true → trim w = w.
Proof.
  intros H. rewrite forallb_forall in H.
  apply trim_id; intros c Hc; apply wordChar_not_space, H, list_elem_of_In.
  - destruct w; [done|]. injection Hc as <-. left.
  - apply last_Some in Hc as [l' ->]. apply elem_of_app. right. left.
Qed.




Lemma forallb_wordChar_snoc (cur : str) (c : ascii) :
  forallb wordChar cur = true → wordChar c = true →
  forallb wordChar (cur ++ [c]) = true.
Proof. intros H1 H2. rewrite forallb_app. simpl. by rewrite H1, H2. Qed.




End TokenizerInvariant.

Section TokenizerCharacters.

Lemma flush_wordChars (toks : list str) (cur : str) (qc : option ascii) :
  forallb wordChar cur = true →
  ∃ toks', flush (mkTok toks cur false qc) = mkTok toks' [] false qc
           ∧ concat toks' = concat toks ++ cur.
Proof.
  intros H. unfold flush. simpl. rewrite trim_word by done.
  destruct cur as [|c cur]; simpl.
  - exists toks. by rewrite app_nil_r.
  - exists (toks ++ [c :: cur]). split; [done|].
    rewrite concat_app. simpl. by rewrite app_nil_r.
Qed.

Lemma tokenizeLoop_characters (rest : str) (prev : option ascii)
    (toks : list str) (cur : str) (qc : option ascii) :
  forallb wordChar cur = true →
  forallb (fun c => negb (isQuote c)) rest = true →
  ∃ toks' cur',
    tokenizeLoop prev rest (mkTok toks cur false qc)
    = mkTok toks' cur' false qc
    ∧ forallb wordChar cur' = true
    ∧ concat toks' ++ cur'
      = concat toks ++ cur
        ++ List.filter (fun c => negb (Char.isSpace c)) rest.
Proof.
  revert prev toks cur. induction rest as [|c rest IH];
    intros prev toks cur Hcur Hrest.
  - exists toks, cur. simpl. by rewrite app_nil_r.
  - simpl in Hrest. apply andb_true_iff in Hrest as [Hc%negb_true_iff Hrest].
    simpl. unfold tokenizeStep. rewrite Hc. simpl andb. cbv iota.
    cbn [inQuotes].
    destruct (flush_wordChars toks cur qc Hcur) as (toks1 & Hfl & Hcat).
    destruct (Char.isSpace c) eqn:Es; simpl negb; cbv iota.
    { rewrite Hfl.
      destruct (IH (Some c) toks1 [] eq_refl Hrest)
        as (toks' & cur' & -> & Hw & Heq).
      exists toks', cur'. split; [done|]. split; [done|].
      by rewrite Heq, Hcat, app_nil_l, <- app_assoc. }
    destruct (_ || _) eqn:Ep.
    + rewrite Hfl. cbn [tokens current inQuotes quoteChar].
      destruct (IH (Some c) (toks1 ++ [[c]]) [] eq_refl Hrest)
        as (toks' & cur' & -> & Hw & Heq).
      exists toks', cur'. split; [done|]. split; [done|].
      rewrite Heq, concat_app, Hcat. simpl.
      by rewrite <- !app_assoc.
    + cbn [tokens current inQuotes quoteChar].
      assert (wordChar c = true) as Hwc.
      { unfold wordChar. apply orb_false_iff in Ep as [-> ->].
        by rewrite Es. }
      destruct (IH (Some c) toks (cur ++ [c])
                  (forallb_wordChar_snoc _ _ Hcur Hwc) Hrest)
        as (toks' & cur' & -> & Hw & Heq).
      exists toks', cur'. split; [done|]. split; [done|].
      rewrite Heq. by rewrite <- !app_assoc.
Qed.

Lemma concat_filter_nonempty (l : list str) :
  concat (List.filter (fun t => 0 <? length t) l) = concat l.
Proof.
  induction l as [|t l IH]; [done|]. simpl.
  destruct t; simpl; [done|]. by rewrite IH.
Qed.

(** X2.  On an expression without quote characters the tokenizer loses
    and adds nothing but white space: the tokens, put end to end, are the
    expression with its white space removed. *)
Theorem tokens_keep_characters (expression : str) :
  forallb (fun c => negb (isQuote c)) expression = true →
  concat (tokenizeODataExpression expression)
  = List.filter (fun c => negb (Char.isSpace c)) expression.
Proof.
  intros H. unfold tokenizeODataExpression.
  destruct (tokenizeLoop_characters expression None [] [] None eq_refl H)
    as (toks & cur & -> & Hw & Heq).
  destruct (flush_wordChars toks cur None Hw) as (toks' & -> & Hcat).
  simpl. by rewrite concat_filter_nonempty, Hcat, Heq.
Qed.

Lemma tokens_keep_characters_witness :
  concat (tokenizeODataExpression "  role in (admin,  editor) ")
  = ("rolein(admin,editor)" : str).
Proof.
  exact (tokens_keep_characters "  role in (admin,  editor) " eq_refl).
Defined.

End TokenizerCharacters.

(** ** The value parser *)

Section ValueParser.
Context {JSN : JSNumber}.

Lemma unescape_escape (s : str) : unescapeQuotes (escapeQuotes s) = s.
Proof.
  induction s as [|c s IH]; [done|].
  change (escapeQuotes (c :: s))
    with ((if bool_decide (c = Char.squote)
           then [Char.squote; Char.squote] else [c]) ++ escapeQuotes s).
  case_bool_decide as Hc.
  - subst c. simpl app.
    change (unescapeQuotes (Char.squote :: Char.squote :: escapeQuotes s))
      with (Char.squote :: unescapeQuotes (escapeQuotes s)).
    by rewrite IH.
  - simpl app. rewrite unescapeQuotes_cons by done. by rewrite IH.
Qed.

(** X3.  [parseValue] undoes the quoting of the value formatter: for
    every string, with or without single quotes inside, the quoted and
    escaped text parses back to the string; in particular un-escaping
    undoes escaping. *)
Theorem parseValue_undoes_quoting (s : str) :
  unescapeQuotes (escapeQuotes s) = s
  ∧ parseValue (quoted s) = VStr s.
Proof.
  split; [apply unescape_escape|].
  unfold parseValue, quoted.
  change ([Char.squote] ++ escapeQuotes s ++ [Char.squote])
    with (Char.squote :: escapeQuotes s ++ [Char.squote]).
  simpl length. cbn [parseValueFuel].
  rewrite bool_decide_eq_false_2 by discriminate.
  change (list_ascii_of_string "'") with [Char.squote].
  rewrite startsWith_cons,
    (app_comm_cons (escapeQuotes s) [Char.squote] Char.squote),
    endsWith_snoc.
  rewrite !bool_decide_eq_true_2 by done. simpl.
  unfold slice_1_m1. simpl tail. rewrite removelast_last.
  by rewrite unescape_escape.
Qed.

(** A token in parentheses takes the array branch. *)
Lemma parseValue_parenthesised (content : str) :
  parseValue ([Char.lparen] ++ content ++ [Char.rparen])
  = VArr (map (fun v => parseValue (trim v)) (split Char.comma content)).
Proof.
  unfold parseValue at 1.
  change ([Char.lparen] ++ content ++ [Char.rparen])
    with (Char.lparen :: content ++ [Char.rparen]).
  simpl length. cbn [parseValueFuel].
  rewrite bool_decide_eq_false_2 by discriminate.
  change (list_ascii_of_string "'") with [Char.squote].
  change (list_ascii_of_string "(") with [Char.lparen].
  change (list_ascii_of_string ")") with [Char.rparen].
  rewrite !startsWith_cons,
    (app_comm_cons content [Char.rparen] Char.lparen), !endsWith_snoc.
  change (bool_decide (Char.lparen = Char.squote)) with false.
  change (bool_decide (Char.lparen = Char.dquote)) with false.
  change (bool_decide (Char.lparen = Char.lparen)) with true.
  change (bool_decide (Char.rparen = Char.rparen)) with true.
  simpl andb. simpl orb. cbv iota.
  unfold slice_1_m1. simpl tail. rewrite removelast_last.
  f_equal. apply map_ext_in. intros part Hin.
  apply parseValueFuel_enough.
  apply list_elem_of_In, split_length in Hin.
  pose proof (trim_length part). rewrite length_app. simpl. lia.
Qed.

Lemma parseValue_empty : parseValue [] = VStr [].
Proof. unfold parseValue. simpl. by destruct (negb _). Qed.

Lemma split_nonempty (sep : ascii) (s : str) : split sep s ≠ [].
Proof.
  destruct s as [|c s]; simpl; [done|].
  case_bool_decide; [done|]. by destruct (split sep s).
Qed.

(** X4.  A token in parentheses parses to the array of its
    comma-separated parts, each trimmed and parsed as a value; the array
    is never empty, and the empty list [()] parses to the array that
    holds one empty string. *)
Theorem parseValue_list (content : str) :
  parseValue ([Char.lparen] ++ content ++ [Char.rparen])
  = VArr (map (fun v => parseValue (trim v)) (split Char.comma content))
  ∧ parseValue ([Char.lparen] ++ content ++ [Char.rparen]) ≠ VArr []
  ∧ parseValue "()" = VArr [VStr ""].
Proof.
  split; [apply parseValue_parenthesised|]. split.
  - rewrite parseValue_parenthesised. intros [= H].
    apply map_eq_nil in H. by apply split_nonempty in H.
  - change (list_ascii_of_string "()")
      with ([Char.lparen] ++ [] ++ [Char.rparen]).
    rewrite parseValue_parenthesised.
    change (split Char.comma []) with [@nil ascii]. cbn [map].
    change (trim []) with (@nil ascii). by rewrite parseValue_empty.
Qed.

End ValueParser.

Section ArrayValues.
Context {JSN : JSNumber}.

Lemma split_no_separator (sep : ascii) (s : str) :
  sep ∉ s → split sep s = [s].
Proof.
  induction s as [|c s IH]; [done|]. intros Hn. simpl.
  rewrite bool_decide_eq_false_2 by (intros ->; apply Hn; left).
  rewrite IH; [done|]. intros ?. apply Hn. by right.
Qed.

Lemma split_at_separator (sep : ascii) (a b : str) :
  sep ∉ a → split sep (a ++ sep :: b) = a :: split sep b.
Proof.
  induction a as [|c a IH]; intros Hn; simpl.
  - by rewrite bool_decide_eq_true_2.
  - rewrite bool_decide_eq_false_2 by (intros ->; apply Hn; left).
    rewrite IH; [done|]. intros ?. apply Hn. by right.
Qed.

(** Splitting the joined elements on the comma gives the elements back,
    all but the first with the space of the separator in front. *)
Lemma split_join (e : str) (es : list str) :
  Forall (fun x => Char.comma ∉ x) (e :: es) →
  split Char.comma (join ", " (e :: es))
  = e :: map (cons Char.space) es.
Proof.
  revert e. induction es as [|e' es IH]; intros e Hall.
  - apply Forall_cons in Hall as [He _]. by apply split_no_separator.
  - apply Forall_cons in Hall as [He Hall].
    change (join ", " (e :: e' :: es))
      with (e ++ Char.comma :: Char.space :: join ", " (e' :: es)).
    rewrite split_at_separator by done. f_equal.
    change (split Char.comma (Char.space :: join ", " (e' :: es)))
      with (match split Char.comma (join ", " (e' :: es)) with
            | h :: t => (Char.space :: h) :: t
            | [] => [[Char.space]]
            end).
    by rewrite IH.
Qed.

Lemma trim_space (e : str) : trim (Char.space :: e) = trim e.
Proof. reflexivity. Qed.

Lemma formatArrayElement_parse (v : jsvalue) :
  arrayElementOK v →
  (Char.comma ∉ formatArrayElement v)
  ∧ parseValue (trim (formatArrayElement v)) = v.
Proof.
  destruct v as [| |b|n|s|l]; simpl; try done.
  - intros _. split; [intros H; refute_elem H|reflexivity].
  - intros _. destruct b; (split; [intros H; refute_elem H|reflexivity]).
  - intros (Hc & (Hne & Hpl & _) & H1 & H2 & H3 & Hn & Hnan & Hfin).
    split; [done|]. rewrite trim_plain, parseValue_bare by done.
    rewrite (bool_decide_eq_false_2 _ H1), (bool_decide_eq_false_2 _ H2),
      (bool_decide_eq_false_2 _ H3), (bool_decide_eq_false_2 _ Hne).
    by rewrite Hn, Hnan, Hfin.
  - intros (Hq & Hc & Hs).
    rewrite (proj2 (includes_false s Char.squote) Hq), orb_false_r.
    destruct (_ || _).
    + unfold quoted. rewrite escapeQuotes_plain by done. split.
      * intros [E|Hin]%elem_of_cons; [done|].
        apply elem_of_app in Hin as [Hin|Hin]; [done|].
        by apply list_elem_of_singleton in Hin.
      * rewrite trim_id; [by apply parseValue_quoted|by intros c [= <-]|].
        intros c. rewrite app_assoc, last_snoc. by intros [= <-].
    + split; [done|]. destruct Hs as [-> | [Hpl (H1 & H2 & H3 & Hnum)]].
      { apply parseValue_empty. }
      destruct s as [|c s]; [apply parseValue_empty|].
      rewrite trim_plain, parseValue_bare by done.
      rewrite (bool_decide_eq_false_2 _ H1), (bool_decide_eq_false_2 _ H2),
        (bool_decide_eq_false_2 _ H3).
      by destruct Hnum as [-> | ->]; rewrite ?andb_false_r.
Qed.

(** X5.  At the level of one value the array format round-trips: for a
    non-empty array of elements that are [null], booleans, finite
    numbers, or strings without single quote and comma (quoted ones, the
    empty string, or plain words that read as strings), [parseValue]
    reads the formatted text back as the array. *)
Theorem parseValue_formatted_array (l : list jsvalue) :
  l ≠ [] → Forall arrayElementOK l →
  parseValue (formatFilterValue (VArr l)) = VArr l.
Proof.
  intros Hne Hall. destruct l as [|v l]; [done|].
  change (formatFilterValue (VArr (v :: l)))
    with ([Char.lparen]
          ++ join ", " (formatArrayElement v :: map formatArrayElement l)
          ++ [Char.rparen]).
  rewrite parseValue_parenthesised, split_join.
  - apply Forall_cons in Hall as [Hv Hl].
    cbn [map]. rewrite (proj2 (formatArrayElement_parse v Hv)).
    f_equal. f_equal. rewrite !map_map.
    induction Hl as [|w l Hw _ IH]; [done|]. cbn [map].
    by rewrite trim_space, (proj2 (formatArrayElement_parse w Hw)), IH.
  - change (formatArrayElement v :: map formatArrayElement l)
      with (map formatArrayElement (v :: l)).
    apply Forall_fmap. eapply Forall_impl; [exact Hall|].
    intros w Hw. by apply formatArrayElement_parse.
Qed.

End ArrayValues.

Section ArrayValuesWitness.
Import IntegerNumber.

Lemma parseValue_formatted_array_witness :
  parseValue (formatFilterValue
                (VArr [VStr "admin"; VStr "site editor"; VInt 7; VNull]))
  = VArr [VStr "admin"; VStr "site editor"; VInt 7; VNull].
Proof.
  apply (parseValue_formatted_array
           [VStr "admin"; VStr "site editor"; VInt 7; VNull]); [done|].
  repeat apply Forall_cons_2; try apply Forall_nil_2.
  - split; [by apply (bool_decide_unpack _)|].
    split; [by apply (bool_decide_unpack _)|].
    right. split; [reflexivity|]. repeat split; try done. by left.
  - split; [by apply (bool_decide_unpack _)|].
    split; [by apply (bool_decide_unpack _)|]. exact I.
  - split; [by apply (bool_decide_unpack _)|].
    repeat split; try done; by apply bareWord_check.
  - exact I.
Defined.

End ArrayValuesWitness.

Section InnerQuotes.

Lemma tokenizeStep_open_after (prev : option ascii) (toks : list str) :
  prev ≠ Some Char.backslash →
  tokenizeStep prev Char.squote (mkTok toks [] false None)
  = mkTok toks [Char.squote] true (Some Char.squote).
Proof.
  intros H. unfold tokenizeStep. simpl.
  by rewrite (bool_decide_eq_false_2 _ H).
Qed.

Lemma quoted_inner_quote (a b : str) :
  Char.squote ∉ a → Char.squote ∉ b →
  quoted (a ++ [Char.squote] ++ b)
  = Char.squote :: a ++ Char.squote :: Char.squote :: b ++ [Char.squote].
Proof.
  intros Ha Hb. unfold quoted.
  assert (∀ x y, escapeQuotes (x ++ y) = escapeQuotes x ++ escapeQuotes y)
    as Happ by (intros x y; apply flat_map_app).
  rewrite !Happ, (escapeQuotes_plain a), (escapeQuotes_plain b) by done.
  simpl. by rewrite <- !app_assoc.
Qed.

(** X6.  The tokenizer does not read the doubled single quote the
    formatter writes for a single quote inside a string: the quoted text
    of a string with one single quote inside is cut into two quoted
    tokens, one for the part before it and one for the part after. *)
Theorem tokenizer_cuts_at_inner_quote (a b : str) :
  Char.squote ∉ a → Char.squote ∉ b → last a ≠ Some Char.backslash →
  tokenizeODataExpression (quoted (a ++ [Char.squote] ++ b))
  = [ [Char.squote] ++ a ++ [Char.squote];
      [Char.squote] ++ b ++ [Char.squote] ].
Proof.
  intros Ha Hb Hlast. rewrite quoted_inner_quote by done.
  unfold tokenizeODataExpression. simpl tokenizeLoop at 1.
  rewrite tokenizeStep_open_after by done.
  rewrite tokenizeLoop_inside by done. simpl tokenizeLoop at 1.
  rewrite tokenizeStep_close
    by (unfold prevAfter; destruct (last a); [done|discriminate]).
  simpl tokenizeLoop at 1. rewrite tokenizeStep_open_after by discriminate.
  rewrite tokenizeLoop_inside by done. simpl tokenizeLoop.
  destruct (decide (prevAfter (Some Char.squote) b = Some Char.backslash))
    as [-> | Hb'].
  - rewrite tokenizeStep_escaped.
    change ((Char.squote :: b) ++ [Char.squote])
      with ([Char.squote] ++ b ++ [Char.squote]).
    by rewrite flush_quoted.
  - rewrite tokenizeStep_close by done. by rewrite flush_empty.
Qed.

Lemma tokenizer_cuts_at_inner_quote_witness :
  tokenizeODataExpression "'O''Brien'" = [ "'O'" : str; "'Brien'" : str ].
Proof.
  refine (tokenizer_cuts_at_inner_quote "O" "Brien" _ _ _).
  - by apply (bool_decide_unpack _).
  - by apply (bool_decide_unpack _).
  - discriminate.
Defined.

End InnerQuotes.

(** ** The expression parser *)

Section ParserInvariants.
Context {JSN : JSNumber}.

Lemma collectArrayValues_rest (ts acc : list str) (t : str) :
  t ∈ (collectArrayValues ts acc).2 → t ∈ ts.
Proof.
  revert acc. induction ts as [|t0 ts IH]; intros acc; simpl; [done|].
  case_bool_decide; simpl; [by right|].
  destruct (_ && _); intros Hin%IH; by right.
Qed.

Lemma parseStep_rest (t0 : str) (ts1 : list str)
    (filters : list ParsedFilter) (t : str) :
  t ∈ (parseStep t0 ts1 filters).1 → t ∈ ts1.
Proof.
  unfold parseStep. destruct (_ || _); [done|].
  destruct ts1 as [|t1 [|t2 ts3]]; try done.
  pose proof (collectArrayValues_rest ts3 [] t) as Hc.
  destruct (collectArrayValues ts3 []) as [vs after]. simpl in Hc.
  repeat (destruct (_ || _) || destruct (_ && _) || case_bool_decide);
    simpl; intros Hin; try apply Hc in Hin; by do 2 right.
Qed.

(** Every descriptor the loop adds has a token of the input that is not
    a joiner as prop, a lower-cased token as operator, and the parsed
    value of some text as value. *)
Lemma parseStep_emits (Q : str → Prop) (P : ParsedFilter → Prop)
    (t0 : str) (ts1 : list str) (filters : list ParsedFilter) :
  (∀ p o tok, Q p → toLowerCase p ≠ "and" → toLowerCase p ≠ "or" →
              P (mkFilter p (toLowerCase o) (parseValue tok))) →
  Q t0 → Forall P filters → Forall P (parseStep t0 ts1 filters).2.
Proof.
  intros HP Hq H. unfold parseStep.
  destruct (_ || _) eqn:E; [done|].
  apply orb_false_iff in E as [Ha%bool_decide_eq_false Ho%bool_decide_eq_false].
  destruct ts1 as [|t1 [|t2 ts3]]; try done.
  destruct (if _ || _ then _ else _) as [valueToken next].
  case_bool_decide; [|done]. simpl.
  apply Forall_app. split; [done|]. constructor; [|done]. by apply HP.
Qed.

Lemma parseLoop_emits (Q : str → Prop) (P : ParsedFilter → Prop)
    (fuel : nat) (ts : list str) (filters : list ParsedFilter) :
  (∀ p o tok, Q p → toLowerCase p ≠ "and" → toLowerCase p ≠ "or" →
              P (mkFilter p (toLowerCase o) (parseValue tok))) →
  (∀ t, t ∈ ts → Q t) → Forall P filters →
  Forall P (parseLoop fuel ts filters).
Proof.
  intros HP. revert ts filters.
  induction fuel as [|fuel IH]; intros ts filters Hts H; [done|].
  destruct ts as [|t0 ts1]; [done|]. simpl.
  pose proof (parseStep_emits Q P t0 ts1 filters HP
                (Hts t0 (list_elem_of_here _ _)) H) as Hs.
  pose proof (parseStep_rest t0 ts1 filters) as Hr.
  destruct (parseStep t0 ts1 filters) as [next filters']. simpl in *.
  apply IH; [|done]. intros t Ht. apply Hts. right. by apply Hr.
Qed.

(** X7.  The prop of every descriptor read from an expression is one of
    its tokens, and never the joiner [and] or [or] in any letter case. *)
Theorem parsed_prop_is_token (expression : str) (f : ParsedFilter) :
  f ∈ parseODataExpression expression →
  prop f ∈ tokenizeODataExpression expression
  ∧ toLowerCase (prop f) ≠ "and" ∧ toLowerCase (prop f) ≠ "or".
Proof.
  intros Hin.
  assert (Forall
    (fun f => prop f ∈ tokenizeODataExpression expression
              ∧ toLowerCase (prop f) ≠ "and" ∧ toLowerCase (prop f) ≠ "or")
    (parseODataExpression expression)) as H.
  { apply (parseLoop_emits
             (fun t => t ∈ tokenizeODataExpression expression));
      [by intros p o tok Hp Ha Ho|done|done]. }
  rewrite Forall_forall in H. by apply H.
Qed.

Lemma parseStep_count (t0 : str) (ts1 : list str)
    (filters : list ParsedFilter) :
  3 * length (parseStep t0 ts1 filters).2
  + length (parseStep t0 ts1 filters).1
  ≤ 3 * length filters + S (length ts1).
Proof.
  unfold parseStep. destruct (_ || _); simpl; [lia|].
  destruct ts1 as [|t1 [|t2 ts3]]; simpl; try lia.
  pose proof (collectArrayValues_length ts3 []) as Hc.
  destruct (collectArrayValues ts3 []) as [vs after]; simpl in Hc.
  repeat (destruct (_ || _) || destruct (_ && _) || case_bool_decide);
    simpl; rewrite ?length_app; simpl; lia.
Qed.

Lemma parseLoop_count (fuel : nat) (ts : list str)
    (filters : list ParsedFilter) :
  3 * length (parseLoop fuel ts filters) ≤ 3 * length filters + length ts.
Proof.
  revert ts filters. induction fuel as [|fuel IH]; intros ts filters;
    [simpl; lia|].
  destruct ts as [|t0 ts1]; [simpl; lia|]. simpl.
  pose proof (parseStep_count t0 ts1 filters) as Hs.
  destruct (parseStep t0 ts1 filters) as [next filters']. simpl in *.
  specialize (IH next filters'). lia.
Qed.

(** X8.  Every descriptor costs at least three tokens: an expression
    yields at most a third as many descriptors as it has tokens. *)
Theorem descriptors_cost_three_tokens (expression : str) :
  3 * length (parseODataExpression expression)
  ≤ length (tokenizeODataExpression expression).
Proof.
  unfold parseODataExpression.
  pose proof (parseLoop_count (length (tokenizeODataExpression expression))
                (tokenizeODataExpression expression) []) as H.
  simpl in H. lia.
Qed.

End ParserInvariants.

Section ParserInvariantsWitness.
Import IntegerNumber.

Lemma parsed_prop_is_token_witness :
  ("status" : str) ∈ tokenizeODataExpression "and status eq active or"
  ∧ toLowerCase "status" ≠ ("and" : str).
Proof.
  destruct (parsed_prop_is_token "and status eq active or"
              (mkFilter "status" FilterOperator.EQ (VStr "active")))
    as (H1 & H2 & _).
  - vm_compute. left.
  - by split.
Defined.

End ParserInvariantsWitness.

Section ParsedValues.
Context {JSN : JSNumber}.

Lemma parseValue_not_empty_array (token : str) :
  parseValue token ≠ VArr [] ∧ parseValue token ≠ VUndefined.
Proof.
  unfold parseValue. destruct token as [|c t].
  - simpl. by destruct (negb _ && _ && _).
  - simpl length. cbn [parseValueFuel].
    repeat (case_bool_decide || destruct (_ || _) || destruct (_ && _));
      try done.
    all: split; [|done]; intros [= Hmap]; apply map_eq_nil in Hmap;
      by apply split_nonempty in Hmap.
Qed.

Lemma collectFilters_emits (P : ParsedFilter → Prop) (parts : list str)
    (acc : list ParsedFilter) :
  (∀ p o tok, P (mkFilter p (toLowerCase o) (parseValue tok))) →
  Forall P acc → Forall P (collectFilters parts acc).
Proof.
  intros HP. revert acc.
  induction parts as [|part parts IH]; intros acc H; [done|].
  simpl. destruct (negb _); [|by apply IH].
  apply IH, Forall_app. split; [done|].
  apply (parseLoop_emits (fun _ => True)); by auto.
Qed.

(** X9.  The parser never returns an empty array (nor [undefined]) as a
    value, so for a parsed [in] filter with an array value the
    translator's emptiness guard never discards the predicate: the filter
    always assigns the membership test on that array to its property, and
    unless the property is [__proto__] the mapping of that filter alone
    holds exactly this entry. *)
Theorem parsed_array_is_translated
    (query : gmap str jsvalue) (f : ParsedFilter) :
  f ∈ parseFilterQueryParams query →
  value f ≠ VArr [] ∧ value f ≠ VUndefined
  ∧ ∀ l : list jsvalue,
      operator f = FilterOperator.IN → value f = VArr l →
      (∀ where_ : WhereObject,
         convertStep where_ f = assign where_ (prop f) (TypeORM.In l))
      ∧ (prop f ≠ protoKey →
         convertFiltersToFindOptionsWhere [f]
         = Returns (mkWhere {[ prop f := TypeORM.In l ]} None)).
Proof.
  intros Hin.
  assert (Forall (fun f => value f ≠ VArr [] ∧ value f ≠ VUndefined)
            (parseFilterQueryParams query)) as H.
  { unfold parseFilterQueryParams.
    destruct (query !! _) as [[]|]; try done.
    destruct (negb _); [done|].
    apply collectFilters_emits; [|done].
    intros p o tok. apply parseValue_not_empty_array. }
  rewrite Forall_forall in H. destruct (H f Hin) as [Hne Hun].
  split; [done|]. split; [done|]. intros l Hop Hv.
  destruct f as [p o v]. simpl in *. subst o v.
  destruct l as [|x l]; [done|].
  assert (∀ where_ : WhereObject,
            convertStep where_
              (mkFilter p FilterOperator.IN (VArr (x :: l)))
            = assign where_ p (TypeORM.In (x :: l))) as Hstep
    by reflexivity.
  split; [exact Hstep|]. intros Hp.
  rewrite convert_single, Hstep, assign_empty.
  by rewrite bool_decide_eq_false_2.
Qed.

End ParsedValues.

Section ParsedValuesWitness.
Import IntegerNumber.

Lemma parsed_array_is_translated_witness :
  convertFiltersToFindOptionsWhere
    [ mkFilter "role" FilterOperator.IN (VArr [VStr ""]) ]
  = Returns (mkWhere {[ ("role" : str) := TypeORM.In [VStr ""] ]} None).
Proof.
  assert (mkFilter "role" FilterOperator.IN (VArr [VStr ""])
          ∈ parseFilterQueryParams (queryOf "role in ()")) as Hin
    by (vm_compute; left).
  destruct (parsed_array_is_translated _ _ Hin) as (_ & _ & H).
  destruct (H [VStr ""] eq_refl eq_refl) as [_ Hone].
  by apply Hone.
Defined.

End ParsedValuesWitness.

Section InLists.
Context {JSN : JSNumber}.

Lemma collectArrayValues_closed (vs rest acc : list str) :
  (")" : str) ∉ vs →
  collectArrayValues (vs ++ (")" : str) :: rest) acc
  = (acc ++ List.filter keptInList vs, rest).
Proof.
  revert acc. induction vs as [|t vs IH]; intros acc Hn.
  - simpl. by rewrite app_nil_r.
  - simpl. rewrite bool_decide_eq_false_2 by (intros ->; apply Hn; left).
    change (negb (bool_decide (t = [","%char]))
            && negb (bool_decide (t = ["("%char])))
      with (keptInList t).
    assert ((")" : str) ∉ vs) as Hn' by (intros ?; apply Hn; by right).
    destruct (keptInList t); rewrite IH by done; [|done].
    by rewrite <- app_assoc.
Qed.

Lemma collectArrayValues_open (vs acc : list str) :
  (")" : str) ∉ vs →
  collectArrayValues vs acc = (acc ++ List.filter keptInList vs, []).
Proof.
  revert acc. induction vs as [|t vs IH]; intros acc Hn.
  - simpl. by rewrite app_nil_r.
  - simpl. rewrite bool_decide_eq_false_2 by (intros ->; apply Hn; left).
    change (negb (bool_decide (t = [","%char]))
            && negb (bool_decide (t = ["("%char])))
      with (keptInList t).
    assert ((")" : str) ∉ vs) as Hn' by (intros ?; apply Hn; by right).
    destruct (keptInList t); rewrite IH by done; [|done].
    by rewrite <- app_assoc.
Qed.

(** X10.  After [<prop> in (] the parser collects the tokens up to the
    first [)], drops the tokens [,] and [(], joins the rest with [", "]
    inside parentheses, parses that text as the value and goes on after
    the [)]; when no [)] follows, the list takes all remaining tokens. *)
Theorem in_list_is_collected
    (p o : str) (vs rest : list str) (filters : list ParsedFilter) :
  toLowerCase p ≠ "and" → toLowerCase p ≠ "or" →
  toLowerCase o = FilterOperator.IN → (")" : str) ∉ vs →
  let value :=
    parseValue ("(" ++ join ", " (List.filter keptInList vs) ++ ")") in
  parseTokens (p :: o :: ("(" : str) :: vs ++ (")" : str) :: rest) filters
  = parseTokens rest (filters ++ [mkFilter p FilterOperator.IN value])
  ∧ (vs ≠ [] →
     parseTokens (p :: o :: ("(" : str) :: vs) filters
     = filters ++ [mkFilter p FilterOperator.IN value]).
Proof.
  intros Hand Hor Ho Hn value.
  assert (∀ ts3 after, ts3 ≠ [] →
    collectArrayValues ts3 [] = (List.filter keptInList vs, after) →
    parseStep p (o :: ("(" : str) :: ts3) filters
    = (after, filters ++ [mkFilter p FilterOperator.IN value])) as Hstep.
  { intros ts3 after Hne Hc. unfold parseStep.
    rewrite (bool_decide_eq_false_2 _ Hand), (bool_decide_eq_false_2 _ Hor).
    simpl orb. cbv iota. rewrite Ho, Hc.
    rewrite (bool_decide_eq_true_2 (FilterOperator.IN = FilterOperator.IN))
      by done.
    rewrite (bool_decide_eq_true_2 (("(" : str) = "(")) by done.
    rewrite (bool_decide_eq_true_2 _ Hne). simpl orb. simpl andb. cbv iota.
    rewrite bool_decide_eq_true_2; [done|].
    unfold FilterOperator.values. by do 9 right; left. }
  split.
  - rewrite parseTokens_cons,
      (Hstep (vs ++ (")" : str) :: rest) rest); [done|by destruct vs|].
    by rewrite collectArrayValues_closed.
  - intros Hne. rewrite parseTokens_cons, (Hstep vs []); [done|done|].
    by rewrite collectArrayValues_open.
Qed.

End InLists.

Section InListsWitness.
Import IntegerNumber.

Lemma in_list_is_collected_witness :
  parseTokens [ "role" : str; "IN" : str; "(" : str; "admin" : str;
                "," : str; "editor" : str; ")" : str;
                "age" : str; "gt" : str; "18" : str ] []
  = parseTokens [ "age" : str; "gt" : str; "18" : str ]
      [ mkFilter "role" FilterOperator.IN
          (parseValue "(admin, editor)") ].
Proof.
  refine (proj1 (in_list_is_collected "role" "IN"
                   [ "admin" : str; "," : str; "editor" : str ]
                   [ "age" : str; "gt" : str; "18" : str ] [] _ _ _ _)).
  - discriminate.
  - discriminate.
  - reflexivity.
  - by apply (bool_decide_unpack _).
Defined.

End InListsWitness.

(** ** The entry points of the parser *)

Section EntryPoints.
Context {JSN : JSNumber}.

Lemma safeBefore_noJoinerIn (e : str) :
  noJoinerIn e = true → safeBefore [] e.
Proof.
  intros He t1 t2 -> Hne. apply noJoinerIn_suffix in He.
  destruct t2 as [|c t2]; [done|]. simpl in He.
  apply andb_true_iff in He as [Hj%negb_true_iff _].
  by rewrite app_nil_r.
Qed.

(** Without a joiner the splitting loop returns the trimmed expression as
    its only part, or no part when the expression is blank. *)
Lemma splitParts_no_joiner (e : str) :
  noJoinerIn e = true →
  splitParts e = if truthy (trim e) then [trim e] else [].
Proof.
  intros He. unfold splitParts. fold (splitAll e [] []).
  rewrite <- (app_nil_r e) at 1.
  by rewrite splitAll_safe, splitAll_nil by (by apply safeBefore_noJoinerIn).
Qed.

Lemma dropWhile_all {A} (p : A → bool) (s : list A) :
  forallb p s = true → dropWhile p s = [].
Proof.
  induction s as [|c s IH]; [done|]. simpl.
  intros [-> H]%andb_true_iff. by apply IH.
Qed.

Lemma trim_blank (s : str) : forallb Char.isSpace s = true → trim s = [].
Proof. intros H. unfold trim. rewrite (dropWhile_all _ _ H). reflexivity. Qed.

Lemma noJoinerIn_blank (s : str) :
  forallb Char.isSpace s = true → noJoinerIn s = true.
Proof.
  induction s as [|c s IH]; [done|]. intros H.
  pose proof H as H'. simpl in H'. apply andb_true_iff in H' as [_ Hs].
  cbn [noJoinerIn]. rewrite IH by done. rewrite andb_true_r.
  apply negb_true_iff, joinerAt_false.
  split; apply matchJoiner_None; rewrite (dropWhile_all _ _ H);
    simpl; apply andb_false_r.
Qed.

(** X11.  An expression in which the joiner pattern (white space, [and]
    or [or] in any letter case, white space) matches nowhere is parsed as
    one expression: the result is that of the expression parser on the
    trimmed text. *)
Theorem parse_without_joiner (e : str) :
  noJoinerIn e = true →
  parseFilterQueryParams (queryOf e) = parseODataExpression (trim e).
Proof.
  intros He. unfold parseFilterQueryParams, queryOf.
  rewrite lookup_singleton_eq. destruct e as [|c e]; [done|].
  simpl negb. cbv iota. rewrite splitParts_no_joiner by done.
  destruct (trim (c :: e)) as [|c' t] eqn:Et; [done|].
  simpl truthy. cbv iota. cbn [collectFilters].
  destruct (isMarker (c' :: t)) eqn:Em; simpl; [|done].
  unfold isMarker in Em.
  by apply orb_true_iff in Em as [Em|Em];
    apply bool_decide_eq_true in Em; rewrite Em.
Qed.

(** X12.  A query without filter text (the [filter] key is absent, its
    value is not a string, or it is a blank string) yields no descriptor
    and the empty predicate mapping. *)
Theorem no_filter_text_no_predicates (query : gmap str jsvalue) :
  noFilterText query →
  parseFilterQueryParams query = []
  ∧ parseFiltersFromQuery query = Returns (mkWhere ∅ None).
Proof.
  intros H.
  assert (parseFilterQueryParams query = []) as E.
  { unfold noFilterText in H. unfold parseFilterQueryParams.
    destruct (query !! _) as [[| | | |s|]|]; try done.
    destruct s as [|c s]; [done|]. simpl negb. cbv iota.
    rewrite splitParts_no_joiner by (by apply noJoinerIn_blank).
    by rewrite trim_blank. }
  split; [done|]. unfold parseFiltersFromQuery. by rewrite E.
Qed.

End EntryPoints.

Section EntryPointsWitness.
Import IntegerNumber.

Lemma parse_without_joiner_witness :
  parseFilterQueryParams (queryOf "  brand eq sandor  ")
  = parseODataExpression "brand eq sandor".
Proof. exact (parse_without_joiner "  brand eq sandor  " eq_refl). Defined.

Lemma no_filter_text_no_predicates_witness :
  parseFiltersFromQuery
    ({[ ("filter" : str) := VArr [VStr "age gt 18"; VStr "age lt 65"] ]})
  = Returns (mkWhere ∅ None)
  ∧ parseFiltersFromQuery (queryOf "   ") = Returns (mkWhere ∅ None)
  ∧ parseFiltersFromQuery ({[ ("page" : str) := VInt 2 ]})
    = Returns (mkWhere ∅ None).
Proof.
  split; [|split].
  - apply (no_filter_text_no_predicates
             {[ ("filter" : str) := VArr [VStr "age gt 18"; VStr "age lt 65"] ]}).
    unfold noFilterText. by rewrite lookup_singleton_eq.
  - apply (no_filter_text_no_predicates (queryOf "   ")).
    unfold noFilterText, queryOf. by rewrite lookup_singleton_eq.
  - apply (no_filter_text_no_predicates {[ ("page" : str) := VInt 2 ]}).
    unfold noFilterText. by rewrite lookup_singleton_ne.
Defined.

End EntryPointsWitness.

(** ** The translator, composed *)

Section TranslatorComposition.
Context {JSN : JSNumber}.

Lemma entryStep_union (entries : gmap str TypeORM.FindOperator)
    (f : ParsedFilter) :
  entryStep entries f = entryStep ∅ f ∪ entries.
Proof.
  unfold entryStep. destruct (translation f) as [predicate|].
  - by rewrite insert_empty, insert_union_singleton_l.
  - by rewrite (left_id_L ∅ (∪)).
Qed.

Lemma fold_entryStep_union (fs : list ParsedFilter)
    (entries : gmap str TypeORM.FindOperator) :
  fold_left entryStep fs entries = fold_left entryStep fs ∅ ∪ entries.
Proof.
  revert entries. induction fs as [|f fs IH]; intros entries; simpl.
  - by rewrite (left_id_L ∅ (∪)).
  - rewrite IH, (IH (entryStep ∅ f)), (entryStep_union entries f).
    by rewrite (assoc_L (∪)).
Qed.

(** X13.  For filters none of whose props is [__proto__], translating a
    concatenation gives the union of the two mappings in which the
    entries of the later filters win: a mapping obtained from more
    filters only adds or replaces entries. *)
Theorem translation_of_concatenation (fs1 fs2 : list ParsedFilter) :
  withoutProtoKey (fs1 ++ fs2) →
  ∃ entries1 entries2 : gmap str TypeORM.FindOperator,
    convertFiltersToFindOptionsWhere fs1 = Returns (mkWhere entries1 None)
    ∧ convertFiltersToFindOptionsWhere fs2
      = Returns (mkWhere entries2 None)
    ∧ convertFiltersToFindOptionsWhere (fs1 ++ fs2)
      = Returns (mkWhere (entries2 ∪ entries1) None).
Proof.
  intros Hplain. pose proof Hplain as [H1 H2]%Forall_app.
  exists (fold_left entryStep fs1 ∅), (fold_left entryStep fs2 ∅).
  split; [|split].
  - by apply convert_plain.
  - by apply convert_plain.
  - rewrite convert_plain by done.
    by rewrite fold_left_app, fold_entryStep_union.
Qed.

Lemma forEach_provenance (fs : list ParsedFilter)
    (where_ where' : WhereObject) :
  forEach fs where_ = Returns where' →
  (∀ (p : str) (predicate : TypeORM.FindOperator),
     own where' !! p = Some predicate →
     own where_ !! p = Some predicate
     ∨ ∃ f, f ∈ fs ∧ prop f = p ∧ translation f = Some predicate)
  ∧ (∀ predicate : TypeORM.FindOperator,
       proto where' = Some predicate →
       proto where_ = Some predicate
       ∨ ∃ f, f ∈ fs ∧ prop f = protoKey
              ∧ translation f = Some predicate).
Proof.
  revert where_. induction fs as [|f fs IH]; intros where_; simpl.
  { intros [= ->]. split; intros; by left. }
  destruct (convertStep where_ f) as [where1|] eqn:E; [|done].
  intros [Hown Hproto]%IH. rewrite convertStep_translation in E.
  assert (∀ g, g ∈ fs → g ∈ f :: fs) as Hfurther by (intros g Hg; by right).
  destruct (translation f) as [x|] eqn:Et.
  - apply assign_returns in E as [[Eown Eproto] | (Ep & Eown & Eproto)].
    + rewrite Eown in Hown. rewrite Eproto in Hproto. split.
      * intros p predicate [H | (g & Hg & Hp & Ht)]%Hown.
        -- destruct (decide (prop f = p)) as [Hp|Hp].
           ++ rewrite Hp, lookup_insert_eq in H. injection H as ->.
              right. exists f. split; [left|done].
           ++ rewrite lookup_insert_ne in H by done. by left.
        -- right. exists g. auto.
      * intros predicate [H | (g & Hg & Hp & Ht)]%Hproto; [by left|].
        right. exists g. auto.
    + rewrite Eown in Hown. rewrite Eproto in Hproto. split.
      * intros p predicate [H | (g & Hg & Hp & Ht)]%Hown; [by left|].
        right. exists g. auto.
      * intros predicate [H | (g & Hg & Hp & Ht)]%Hproto.
        -- injection H as ->. right. exists f. split; [left|done].
        -- right. exists g. auto.
  - injection E as <-. split.
    + intros p predicate [H | (g & Hg & Hp & Ht)]%Hown; [by left|].
      right. exists g. auto.
    + intros predicate [H | (g & Hg & Hp & Ht)]%Hproto; [by left|].
      right. exists g. auto.
Qed.

(** X14.  The translator returns an object whenever no prop is
    [__proto__].  Every entry of an object it returns is the translation
    of one of the filters, stored under that filter's prop; a property
    that no filter names has no entry; and a prototype other than the
    one of the literal is the translation of a filter on [__proto__]. *)
Theorem entries_come_from_filters (fs : list ParsedFilter) (p : str) :
  (withoutProtoKey fs →
   ∃ where_ : WhereObject,
     convertFiltersToFindOptionsWhere fs = Returns where_)
  ∧ ∀ where_ : WhereObject,
      convertFiltersToFindOptionsWhere fs = Returns where_ →
      (∀ predicate : TypeORM.FindOperator,
         own where_ !! p = Some predicate →
         ∃ f, f ∈ fs ∧ prop f = p ∧ translation f = Some predicate)
      ∧ ((∀ f, f ∈ fs → prop f ≠ p) → own where_ !! p = None)
      ∧ (∀ predicate : TypeORM.FindOperator,
           proto where_ = Some predicate →
           ∃ f, f ∈ fs ∧ prop f = protoKey
                ∧ translation f = Some predicate).
Proof.
  split.
  { intros Hplain. eexists. by apply convert_plain. }
  intros where_ [Hown Hproto]%forEach_provenance.
  assert (∀ predicate : TypeORM.FindOperator,
     own where_ !! p = Some predicate →
     ∃ f, f ∈ fs ∧ prop f = p ∧ translation f = Some predicate) as H.
  { intros predicate [Hl|Hl]%Hown; [|done].
    simpl in Hl. by rewrite lookup_empty in Hl. }
  split; [done|]. split.
  - intros Hnone.
    destruct (own where_ !! p) as [x|] eqn:E; [|done].
    destruct (H x eq_refl) as (f & Hin & Hp & _). by destruct (Hnone f Hin).
  - by intros predicate [Hl|Hl]%Hproto.
Qed.

(** X19.  A filter on [__proto__] adds no entry: after filters on other
    props, the object it returns has the same own entries, none of them
    named [__proto__], and the filter's predicate as prototype. *)
Theorem proto_filter_adds_no_entry
    (fs : list ParsedFilter) (f : ParsedFilter)
    (predicate : TypeORM.FindOperator) :
  withoutProtoKey fs →
  prop f = protoKey → translation f = Some predicate →
  ∃ entries : gmap str TypeORM.FindOperator,
    convertFiltersToFindOptionsWhere fs = Returns (mkWhere entries None)
    ∧ convertFiltersToFindOptionsWhere (fs ++ [f])
      = Returns (mkWhere entries (Some predicate))
    ∧ entries !! protoKey = None.
Proof.
  intros Hplain Hp Ht. exists (fold_left entryStep fs ∅).
  assert (fold_left entryStep fs ∅ !! protoKey = None) as Hnone.
  { rewrite fold_entryStep_untouched; [apply lookup_empty|].
    intros g Hg Hg'. unfold withoutProtoKey in Hplain.
    rewrite Forall_forall in Hplain. by destruct (Hplain g Hg). }
  split; [by apply convert_plain|]. split; [|done].
  unfold convertFiltersToFindOptionsWhere. rewrite forEach_app.
  rewrite forEach_plain by done. simpl.
  rewrite convertStep_translation, Ht, Hp. unfold assign. cbn [own proto].
  by rewrite Hnone.
Qed.

End TranslatorComposition.

Section TranslatorCompositionWitness.
Import IntegerNumber.

Lemma translation_of_concatenation_witness :
  ∃ entries1 entries2 : gmap str TypeORM.FindOperator,
    convertFiltersToFindOptionsWhere
      [ mkFilter "age" FilterOperator.GE (VInt 18);
        mkFilter "status" FilterOperator.EQ (VStr "active") ]
    = Returns (mkWhere entries1 None)
    ∧ convertFiltersToFindOptionsWhere
        [ mkFilter "age" FilterOperator.LE (VInt 65) ]
      = Returns (mkWhere entries2 None)
    ∧ convertFiltersToFindOptionsWhere
        ([ mkFilter "age" FilterOperator.GE (VInt 18);
           mkFilter "status" FilterOperator.EQ (VStr "active") ]
         ++ [ mkFilter "age" FilterOperator.LE (VInt 65) ])
      = Returns (mkWhere (entries2 ∪ entries1) None).
Proof.
  apply (translation_of_concatenation
           [ mkFilter "age" FilterOperator.GE (VInt 18);
             mkFilter "status" FilterOperator.EQ (VStr "active") ]
           [ mkFilter "age" FilterOperator.LE (VInt 65) ]).
  repeat constructor; discriminate.
Defined.

Lemma entries_come_from_filters_witness :
  let fs := [ mkFilter "age" FilterOperator.GE (VInt 18);
              mkFilter "age" FilterOperator.LE (VInt 65) ] in
  ∃ where_ : WhereObject,
    convertFiltersToFindOptionsWhere fs = Returns where_
    ∧ (∃ f, f ∈ fs ∧ prop f = ("age" : str)
            ∧ translation f = Some (TypeORM.LessThanOrEqual (VInt 65)))
    ∧ own where_ !! ("status" : str) = None.
Proof.
  intros fs.
  destruct (entries_come_from_filters fs "age") as [_ H1].
  destruct (entries_come_from_filters fs "status") as [_ H2].
  assert (convertFiltersToFindOptionsWhere fs
          = Returns (mkWhere
              (<[("age" : str) := TypeORM.LessThanOrEqual (VInt 65)]>
                 (<[("age" : str) := TypeORM.MoreThanOrEqual (VInt 18)]> ∅))
              None)) as Hw.
  { unfold fs. rewrite convert_plain by (repeat constructor; discriminate).
    cbn [fold_left].
    rewrite (entryStep_written _ (mkFilter "age" FilterOperator.GE (VInt 18))
               (TypeORM.MoreThanOrEqual (VInt 18)))
      by (by apply translation_of_step).
    by rewrite (entryStep_written _ (mkFilter "age" FilterOperator.LE (VInt 65))
                  (TypeORM.LessThanOrEqual (VInt 65)))
      by (by apply translation_of_step). }
  eexists. split; [exact Hw|].
  destruct (H1 _ Hw) as (Hage & _ & _).
  destruct (H2 _ Hw) as (_ & Hstatus & _).
  split.
  - apply Hage. cbn [own]. apply lookup_insert_eq.
  - apply Hstatus. intros f Hin.
    apply elem_of_cons in Hin as [-> | Hin]; [discriminate|].
    apply elem_of_cons in Hin as [-> | Hin]; [discriminate|].
    by apply elem_of_nil in Hin.
Defined.

Lemma proto_filter_adds_no_entry_witness :
  ∃ entries : gmap str TypeORM.FindOperator,
    convertFiltersToFindOptionsWhere
      [ mkFilter "age" FilterOperator.GT (VInt 18) ]
    = Returns (mkWhere entries None)
    ∧ convertFiltersToFindOptionsWhere
        ([ mkFilter "age" FilterOperator.GT (VInt 18) ]
         ++ [ mkFilter "__proto__" FilterOperator.EQ (VInt 1) ])
      = Returns (mkWhere entries (Some (TypeORM.Equal (VInt 1))))
    ∧ entries !! protoKey = None.
Proof.
  apply (proto_filter_adds_no_entry
           [ mkFilter "age" FilterOperator.GT (VInt 18) ]
           (mkFilter "__proto__" FilterOperator.EQ (VInt 1))).
  - repeat constructor; discriminate.
  - reflexivity.
  - by apply translation_of_step.
Defined.

End TranslatorCompositionWitness.

(** ** The serializer, composed *)

Section SerializerComposition.
Context {JSN : JSNumber}.

Lemma join_app (sep : str) (l1 l2 : list str) :
  l1 ≠ [] → l2 ≠ [] →
  join sep (l1 ++ l2) = join sep l1 ++ sep ++ join sep l2.
Proof.
  intros H1 H2. induction l1 as [|x l1 IH]; [done|].
  destruct l1 as [|y l1].
  - simpl. by destruct l2.
  - change (join sep ((x :: y :: l1) ++ l2))
      with (x ++ sep ++ join sep ((y :: l1) ++ l2)).
    rewrite IH by done.
    change (join sep (x :: y :: l1)) with (x ++ sep ++ join sep (y :: l1)).
    by rewrite <- !app_assoc.
Qed.

Lemma buildFilterQueryParams_lookup
    (D : list ODataFilter) (l : LogicalOperator) (e : str) :
  buildFilterQueryParams D l !! ("filter" : str) = Some e →
  D ≠ [] ∧ buildFilterQueryParams D l = {[ ("filter" : str) := e ]}
  ∧ e = join (" " ++ logicalText l ++ " ") (map filterToODataExpression D).
Proof.
  unfold buildFilterQueryParams. destruct D as [|d D].
  - by rewrite bool_decide_eq_true_2, lookup_empty.
  - rewrite bool_decide_eq_false_2 by done. cbv zeta.
    rewrite lookup_singleton_eq. intros H.
    split; [done|]. split; congruence.
Qed.

(** X15.  Serializing a concatenation of two non-empty filter sequences
    gives the two serialized expressions joined by the logical
    operator between spaces. *)
Theorem serialize_concatenation
    (D1 D2 : list ODataFilter) (l : LogicalOperator) (e1 e2 : str) :
  buildFilterQueryParams D1 l !! ("filter" : str) = Some e1 →
  buildFilterQueryParams D2 l !! ("filter" : str) = Some e2 →
  buildFilterQueryParams (D1 ++ D2) l !! ("filter" : str)
  = Some (e1 ++ " " ++ logicalText l ++ " " ++ e2).
Proof.
  intros (Hn1 & _ & ->)%buildFilterQueryParams_lookup
         (Hn2 & _ & ->)%buildFilterQueryParams_lookup.
  unfold buildFilterQueryParams.
  rewrite bool_decide_eq_false_2
    by (rewrite length_app; destruct D1; [done|simpl; lia]).
  cbv zeta. rewrite lookup_singleton_eq, map_app.
  rewrite join_app by (by intros ?%map_eq_nil).
  by rewrite <- !app_assoc.
Qed.

(** X16.  For a non-empty filter sequence the query string is the
    encoded key [filter], an equals sign, and the encoded expression;
    [buildSingleFilterQueryParam] emits the expression of its one
    filter. *)
Theorem query_string_of_filters
    (encodeURIComponent : str → str)
    (D : list ODataFilter) (l : LogicalOperator) (e : str) :
  buildFilterQueryParams D l !! ("filter" : str) = Some e →
  buildFilterQueryString encodeURIComponent D l
  = encodeURIComponent "filter" ++ "=" ++ encodeURIComponent e
  ∧ ∀ (p o : str) (v : jsvalue),
      buildSingleFilterQueryParam p o v !! ("filter" : str)
      = Some (filterToODataExpression (mkFilter p o v)).
Proof.
  intros (_ & Hb & _)%buildFilterQueryParams_lookup. split.
  - unfold buildFilterQueryString. cbv zeta.
    by rewrite Hb, map_to_list_singleton.
  - intros p o v. unfold buildSingleFilterQueryParam, buildFilterQueryParams.
    rewrite bool_decide_eq_false_2 by done. apply lookup_singleton_eq.
Qed.

End SerializerComposition.

Section SerializerCompositionWitness.
Import IntegerNumber.

Lemma serialize_concatenation_witness :
  buildFilterQueryParams
    ([mkFilter "age" FilterOperator.GT (VInt 18)]
     ++ [mkFilter "status" FilterOperator.EQ (VStr "active")]) Or
    !! ("filter" : str)
  = Some ("age gt 18 or status eq active" : str).
Proof.
  apply (serialize_concatenation
           [mkFilter "age" FilterOperator.GT (VInt 18)]
           [mkFilter "status" FilterOperator.EQ (VStr "active")] Or
           "age gt 18" "status eq active"); vm_compute; reflexivity.
Defined.

Lemma query_string_of_filters_witness :
  buildFilterQueryString (fun s => s)
    [mkFilter "age" FilterOperator.GT (VInt 18)] And
  = ("filter=age gt 18" : str).
Proof.
  apply (query_string_of_filters (fun s => s)
           [mkFilter "age" FilterOperator.GT (VInt 18)] And "age gt 18").
  vm_compute. reflexivity.
Defined.

End SerializerCompositionWitness.

(** ** Quoted spans and logical operators *)

Section QuotedSpans.



End QuotedSpans.

Section LogicalOperators.
Context {JSN : JSNumber}.

Lemma parse_joined_segments (l : LogicalOperator) (es : list str) :
  Forall segment es →
  parseFilterQueryParams
    (queryOf (join (" " ++ logicalText l ++ " ") es))
  = concat (map parseODataExpression es).
Proof.
  intros Hall. unfold parseFilterQueryParams, queryOf.
  rewrite lookup_singleton_eq. destruct es as [|e es]; [done|].
  pose proof Hall as Hhead. apply Forall_cons in Hhead as [Hhead _].
  destruct (segment_join_head (" " ++ logicalText l ++ " ") e es Hhead)
    as (c0 & R & HR & _).
  rewrite HR at 1. simpl negb. cbv iota.
  rewrite splitParts_segments by done.
  by rewrite collectFilters_intersperse by (by destruct l).
Qed.

(** X18.  The parser reads [or] as [and]: for pieces of text that the
    splitting loop returns whole, joining them with [or] or with [and]
    gives the same descriptors, namely those of each piece in order. *)
Theorem or_is_read_as_and (es : list str) :
  Forall segment es →
  parseFilterQueryParams (queryOf (join " or " es))
  = parseFilterQueryParams (queryOf (join " and " es))
  ∧ parseFilterQueryParams (queryOf (join " or " es))
    = concat (map parseODataExpression es).
Proof.
  intros Hall.
  pose proof (parse_joined_segments Or es Hall) as Ho.
  pose proof (parse_joined_segments And es Hall) as Ha.
  change (" " ++ logicalText Or ++ " ") with (list_ascii_of_string " or ")
    in Ho.
  change (" " ++ logicalText And ++ " ") with (list_ascii_of_string " and ")
    in Ha.
  split; congruence.
Qed.

End LogicalOperators.

Section LogicalOperatorsWitness.
Import IntegerNumber.

Lemma or_is_read_as_and_witness :
  parseFilterQueryParams (queryOf "age lt 18 or age gt 65")
  = parseFilterQueryParams (queryOf "age lt 18 and age gt 65").
Proof.
  assert (Forall segment [ "age lt 18" : str; "age gt 65" : str ]) as H.
  { repeat apply Forall_cons_2; try apply Forall_nil_2.
    - apply (expression_segment
               (mkFilter "age" FilterOperator.LT (VInt 18))).
      split; [by apply bareWord_check|].
      split; [by apply (bool_decide_unpack _)|].
      repeat split; try done; by apply bareWord_check.
    - apply (expression_segment
               (mkFilter "age" FilterOperator.GT (VInt 65))).
      split; [by apply bareWord_check|].
      split; [by apply (bool_decide_unpack _)|].
      repeat split; try done; by apply bareWord_check. }
  exact (proj1 (or_is_read_as_and _ H)).
Defined.

End LogicalOperatorsWitness.
